(** * dragonsteel-check: the signed-title pipeline of [check_signed.py]

    A shallow embedding of the functions of [src/check_signed.py], the
    properties its specification states about them, and further
    properties of the code.

    Python text is a sequence of Unicode code points; the tables of the
    Python runtime the script relies on (case folding, the Unicode
    character database, the HTML entity tables, the HTML tokenizer, float
    printing) are variables of the sections below, so every theorem holds
    for whatever those tables contain. *)

From stdpp Require Import gmap list strings sorting.
From Stdlib Require Import NArith ZArith Ascii Lia.

Local Open Scope N_scope.
Set Warnings "-register-all".

(** ** Text *)

(** A Python [str]: its code points, in order. *)
Abbreviation pystr := (list N).

(** An ASCII literal as a [str]. *)
Definition u (s : string) : pystr :=
  (λ a, N_of_ascii a) <$> String.list_ascii_of_string s.

(** [a < b] on [str]: lexicographic on code points. *)
Fixpoint str_ltb (a b : pystr) : bool :=
  match a, b with
  | _, [] => false
  | [], _ :: _ => true
  | x :: a', y :: b' =>
      if x <? y then true else if y <? x then false else str_ltb a' b'
  end.

(** [a <= b], as [not (b < a)]. *)
Definition str_le (a b : pystr) : Prop := str_ltb b a = false.

(** [str.isspace] on one code point ([Py_UNICODE_ISSPACE]); it is also
    the class [\s] of [re] on text patterns. *)
Definition isspace (c : N) : bool :=
  ((9 <=? c) && (c <=? 13)) || ((28 <=? c) && (c <=? 32))
  || (c =? 133) || (c =? 160) || (c =? 5760)
  || ((8192 <=? c) && (c <=? 8202))
  || (c =? 8232) || (c =? 8233) || (c =? 8239) || (c =? 8287)
  || (c =? 12288).

(** Stripping the characters of a class from the left and from the right. *)
Fixpoint lstrip_of (p : N → bool) (s : pystr) : pystr :=
  match s with
  | c :: s' => if p c then lstrip_of p s' else s
  | [] => []
  end.

Definition rstrip_of (p : N → bool) (s : pystr) : pystr :=
  reverse (lstrip_of p (reverse s)).

(** [str.lstrip()], [str.rstrip()], [str.strip()]. *)
Definition lstrip (s : pystr) : pystr := lstrip_of isspace s.

Definition rstrip (s : pystr) : pystr := rstrip_of isspace s.

Definition strip (s : pystr) : pystr := rstrip (lstrip s).

(** [sep.join(lines)]. *)
Fixpoint join (sep : pystr) (lines : list pystr) : pystr :=
  match lines with
  | [] => []
  | [l] => l
  | l :: ls => l ++ sep ++ join sep ls
  end.

(** [text.startswith(prefix)]. *)
Fixpoint startswith (prefix text : pystr) : bool :=
  match prefix, text with
  | [], _ => true
  | _ :: _, [] => false
  | p :: prefix', c :: text' => (p =? c) && startswith prefix' text'
  end.

(** ** [list.sort(key=...)]

    Python's sort is stable and compares keys with [<] only; a stable
    insertion sort returns the same list. *)
Section Sort.
Context {A : Type} (key : A → pystr).

Fixpoint sort_insert (x : A) (l : list A) : list A :=
  match l with
  | [] => [x]
  | y :: l' =>
      if str_ltb (key y) (key x) then y :: sort_insert x l' else x :: l
  end.

Definition list_sort (l : list A) : list A := foldr sort_insert [] l.

(** Ordered by key. *)
Definition key_le (a b : A) : Prop := str_le (key a) (key b).
End Sort.

(** ** The differ *)
Section Differ.
(** [str.casefold]: full Unicode case folding. *)
Variable casefold : pystr → pystr.

Definition diff_titles (previous current : list pystr)
  : list pystr * list pystr :=
  let previous_keys : gset pystr := list_to_set (casefold <$> previous) in
  let current_keys : gset pystr := list_to_set (casefold <$> current) in
  let added := filter (λ title, casefold title ∉ previous_keys) current in
  let removed := filter (λ title, casefold title ∉ current_keys) previous in
  (list_sort casefold added, list_sort casefold removed).
End Differ.

(** ** The normalizer *)

(** [WHITESPACE_RE.sub(" ", text)] for [WHITESPACE_RE = \s+]: every
    maximal run of whitespace becomes one space. [in_run] tells that the
    previous character was whitespace. *)
Fixpoint WHITESPACE_sub_from (in_run : bool) (text : pystr) : pystr :=
  match text with
  | [] => []
  | c :: text' =>
      if isspace c then
        if in_run then WHITESPACE_sub_from true text'
        else 32 :: WHITESPACE_sub_from true text'
      else c :: WHITESPACE_sub_from false text'
  end.

Definition WHITESPACE_sub (text : pystr) : pystr :=
  WHITESPACE_sub_from false text.

(** *** [html.unescape] *)

(** The tables of the [html] module: the named character references of
    HTML 5 ([html.entities.html5], keyed by the name without [&]), the
    replacements of invalid numeric references, and the code points a
    numeric reference may not denote. *)
Record html_tables := {
  html5 : gmap pystr pystr;
  invalid_charrefs : gmap N pystr;
  invalid_codepoints : gset N
}.

Definition is_digit (c : N) : bool := (48 <=? c) && (c <=? 57).

Definition is_hexdigit (c : N) : bool :=
  is_digit c || ((97 <=? c) && (c <=? 102)) || ((65 <=? c) && (c <=? 70)).

(** The value of a (hexadecimal) digit, and [int(ds, base)] on digits. *)
Definition digit_value (c : N) : N :=
  if is_digit c then c - 48
  else if 97 <=? c then c - 87 else c - 55.

Definition int_of (base : N) (ds : pystr) : N :=
  foldl (λ acc d, acc * base + digit_value d) 0 ds.

(** The longest prefix of at most [n] characters satisfying [p]. *)
Fixpoint take_upto (n : nat) (p : N → bool) (s : pystr) : pystr :=
  match n, s with
  | S n', c :: s' => if p c then c :: take_upto n' p s' else []
  | _, _ => []
  end.

(** The class [[^\t\n\f <&#;]] of a reference name. *)
Definition is_name_char (c : N) : bool :=
  negb (bool_decide (c ∈ [9; 10; 12; 32; 60; 38; 35; 59])).

(** The optional [;] that ends a reference. *)
Definition semicolon (s : pystr) : pystr :=
  match s with
  | 59 :: _ => [59]
  | _ => []
  end.

(** Group 1 of [_charref] matched just after a [&]:
    [#[0-9]+;?], else [#[xX][0-9a-fA-F]+;?], else
    [[^\t\n\f <&#;]{1,32};?]. *)
Definition charref_match (t : pystr) : option pystr :=
  match t with
  | 35 :: t1 =>
      match take_upto (length t1) is_digit t1 with
      | (_ :: _) as ds => Some (35 :: ds ++ semicolon (drop (length ds) t1))
      | [] =>
          match t1 with
          | x :: t2 =>
              if (x =? 120) || (x =? 88) then
                match take_upto (length t2) is_hexdigit t2 with
                | (_ :: _) as hs =>
                    Some (35 :: x :: hs ++ semicolon (drop (length hs) t2))
                | [] => None
                end
              else None
          | [] => None
          end
      end
  | _ =>
      match take_upto 32 is_name_char t with
      | (_ :: _) as nm => Some (nm ++ semicolon (drop (length nm) t))
      | [] => None
      end
  end.

(** [s.rstrip(';')]. *)
Definition rstrip_semicolon (s : pystr) : pystr :=
  rstrip_of (λ c, c =? 59) s.

Section Unescape.
Variable T : html_tables.

(** The loop [for x in range(len(s)-1, 1, -1)] of [_replace_charref]:
    the longest proper prefix of [s], of two characters or more, that is
    a name of the table. *)
Fixpoint longest_name (s : pystr) (x : nat) : option pystr :=
  match x with
  | S x' =>
      if decide (2 ≤ x)%nat then
        match html5 T !! take x s with
        | Some r => Some (r ++ drop x s)
        | None => longest_name s x'
        end
      else None
  | O => None
  end.

(** [_replace_charref] on group 1 of a match. *)
Definition replace_charref (s : pystr) : pystr :=
  match s with
  | 35 :: s1 =>
      let num :=
        match s1 with
        | x :: s2 =>
            if (x =? 120) || (x =? 88) then int_of 16 (rstrip_semicolon s2)
            else int_of 10 (rstrip_semicolon s1)
        | [] => 0
        end in
      match invalid_charrefs T !! num with
      | Some r => r
      | None =>
          if ((55296 <=? num) && (num <=? 57343)) || (1114111 <? num)
          then [65533]
          else if decide (num ∈ invalid_codepoints T) then []
          else [num]
      end
  | _ =>
      match html5 T !! s with
      | Some r => r
      | None =>
          match longest_name s (length s - 1) with
          | Some r => r
          | None => 38 :: s
          end
      end
  end.

(** [_charref.sub(_replace_charref, s)]: left to right, each match
    replaced, the text of a match skipped ([skip] characters are still
    to be dropped). *)
Fixpoint charref_sub (skip : nat) (s : pystr) : pystr :=
  match s with
  | [] => []
  | c :: t =>
      match skip with
      | S k => charref_sub k t
      | O =>
          if c =? 38 then
            match charref_match t with
            | Some g => replace_charref g ++ charref_sub (length g) t
            | None => c :: charref_sub 0 t
            end
          else c :: charref_sub 0 t
      end
  end.

Definition unescape (s : pystr) : pystr :=
  if decide (38 ∈ s) then charref_sub 0 s else s.

Definition normalize_title (title : pystr) : pystr :=
  let text := unescape title in
  strip (WHITESPACE_sub text).
End Unescape.

(** *** [SIGNED_RE.search]

    [SIGNED_RE] is [\bElantris\b] compiled with [re.IGNORECASE]. The
    compiler turns each cased literal into its lower case, to be compared
    with the lower case of the character read; for [i] and [s] it adds
    the other lower-case letters of the same upper case (dotless i and
    long s). *)
Definition SIGNED_codes : list (list N) :=
  [[101]; [108]; [97]; [110]; [116]; [114]; [105; 305]; [115; 383]].

Section Search.
(** The simple lower-case mapping and the alphanumeric class of the
    Unicode character database. *)
Variable unicode_tolower : N → N.
Variable unicode_isalnum : N → bool.

(** The class [\w], also on a position outside the text. *)
Definition is_word (c : option N) : bool :=
  match c with
  | Some c => unicode_isalnum c || (c =? 95)
  | None => false
  end.

(** [\b] between two positions. *)
Definition at_boundary (before after : option N) : bool :=
  xorb (is_word before) (is_word after).

(** The literals of the pattern against the text; gives the last
    character read and the text left. *)
Fixpoint match_ignore (codes : list (list N)) (before : option N)
    (text : pystr) : option (option N * pystr) :=
  match codes with
  | [] => Some (before, text)
  | cs :: codes' =>
      match text with
      | c :: text' =>
          if bool_decide (unicode_tolower c ∈ cs)
          then match_ignore codes' (Some c) text'
          else None
      | [] => None
      end
  end.

(** The pattern at one position; [before] is the character in front. *)
Definition SIGNED_match (before : option N) (text : pystr) : bool :=
  at_boundary before (head text) &&
  match match_ignore SIGNED_codes before text with
  | Some (last, rest) => at_boundary last (head rest)
  | None => false
  end.

Fixpoint SIGNED_search_from (before : option N) (text : pystr) : bool :=
  SIGNED_match before text ||
  match text with
  | c :: text' => SIGNED_search_from (Some c) text'
  | [] => false
  end.

Definition SIGNED_search (text : pystr) : bool :=
  SIGNED_search_from None text.
End Search.

(** ** The extractor *)

(** A start tag as [HTMLParser] reports it: the tag and its attributes,
    an attribute without [=] having the value [None]. *)
Definition attrs := list (pystr * option pystr).
Definition starttag : Type := pystr * attrs.

(** [dict(attrs)]: a later pair replaces an earlier one of the same name. *)
Definition dict (a : attrs) : gmap pystr (option pystr) :=
  foldl (λ m kv, <[kv.1 := kv.2]> m) ∅ a.

(** Truth of an optional text: [None] and [""] are false. *)
Definition truthy (v : option pystr) : bool :=
  match v with
  | Some (_ :: _) => true
  | _ => false
  end.

(** [ProductTitleParser.handle_starttag]; [titles] is [self.titles]. *)
Definition handle_starttag (titles : list pystr) (tag : pystr) (a : attrs)
  : list pystr :=
  if bool_decide (tag ≠ u "a") then titles
  else
    let attr_map := dict a in
    let href := default (Some []) (attr_map !! u "href") in
    let title := default None (attr_map !! u "title") in
    if negb (truthy title) || negb (truthy href) then titles
    else if startswith (u "/products/") (default [] href)
         then titles ++ [default [] title]
         else titles.

(** [self.titles] after the parser has seen the given start tags. *)
Definition parser_titles (tags : list starttag) : list pystr :=
  foldl (λ titles t, handle_starttag titles t.1 t.2) [] tags.

Section Extract.
Variable T : html_tables.
Variable casefold : pystr → pystr.
Variable unicode_tolower : N → N.
Variable unicode_isalnum : N → bool.
(** [HTMLParser.feed]: the start tags of a markup text, in order. *)
Variable feed : pystr → list starttag.

(** One turn of the loop of [extract_titles]. *)
Definition extract_step (st : gset pystr * list pystr) (raw_title : pystr)
  : gset pystr * list pystr :=
  let title := normalize_title T raw_title in
  if bool_decide (title = []) then st
  else if negb (SIGNED_search unicode_tolower unicode_isalnum title) then st
  else
    let key := casefold title in
    if bool_decide (key ∈ st.1) then st
    else ({[key]} ∪ st.1, st.2 ++ [title]).

(** The loop and the sort of [extract_titles], on the candidates the
    parser collected. *)
Definition normalizer_filter (candidates : list pystr) : list pystr :=
  list_sort casefold (foldl extract_step (∅, []) candidates).2.

Definition extract_titles (html_text : pystr) : list pystr :=
  normalizer_filter (parser_titles (feed html_text)).
End Extract.

(** ** The report renderer *)

(** [text.replace(before, after)]: the occurrences of [before], left to
    right and without overlap; [skip] characters of an occurrence are
    still to be dropped. An empty [before] occurs around every
    character. *)
Fixpoint replace_from (skip : nat) (before after text : pystr) : pystr :=
  match text with
  | [] => []
  | c :: text' =>
      match skip with
      | S k => replace_from k before after text'
      | O =>
          if startswith before text
          then after ++ replace_from (length before - 1) before after text'
          else c :: replace_from 0 before after text'
      end
  end.

Definition replace (before after text : pystr) : pystr :=
  match before with
  | [] => after ++ concat ((λ c, c :: after) <$> text)
  | _ :: _ => replace_from 0 before after text
  end.

Definition replacements : list (pystr * pystr) :=
  [ (u "\", u "\\");
    (u "*", u "\*");
    (u "_", u "\_");
    (u "`", u "\`");
    (u "[", u "\[");
    (u "]", u "\]") ].

Definition escape_markdown (text : pystr) : pystr :=
  foldl (λ text r, replace r.1 r.2 text) text replacements.

Section Renderer.
Variable casefold : pystr → pystr.

(** The line of one current title. *)
Definition current_line (added_keys : gset pystr) (title : pystr) : pystr :=
  let safe_title := escape_markdown title in
  let safe_title :=
    if bool_decide (casefold title ∈ added_keys)
    then u "**" ++ safe_title ++ u "**"
    else safe_title in
  u "- " ++ safe_title.

(** [lines] at the end of [format_issue_body]. *)
Definition issue_lines (current added removed : list pystr) : list pystr :=
  let lines := [] in
  let lines :=
    match added with
    | [] => lines
    | _ :: _ =>
        lines ++ [u "Added:"]
        ++ ((λ title, u "- **" ++ escape_markdown title ++ u "**") <$> added)
        ++ [[]]
    end in
  let lines :=
    match removed with
    | [] => lines
    | _ :: _ =>
        lines ++ [u "Removed:"]
        ++ ((λ title, u "- " ++ escape_markdown title) <$> removed)
        ++ [[]]
    end in
  let lines := lines ++ [u "Current signed titles:"] in
  let added_keys : gset pystr := list_to_set (casefold <$> added) in
  lines ++ (current_line added_keys <$> current).

Definition format_issue_body (current added removed : list pystr) : pystr :=
  rstrip (join [10] (issue_lines current added removed)) ++ [10].
End Renderer.

(** [removed[0]] in the last line cannot fail: there [total_changes] is 1
    and [added] is empty. *)
Definition format_issue_title (added removed : list pystr) : pystr :=
  let total_changes := (length added + length removed)%nat in
  if bool_decide (total_changes = 0%nat) then []
  else if bool_decide (1 < total_changes)%nat then
    u "New signed book - multiple"
  else
    match added with
    | a0 :: _ => u "New signed book - " ++ a0
    | [] => u "Removed signed book - " ++ default [] (head removed)
    end.

(** ** Snapshots: [json] *)

(** The Python values [json] reads and writes. A [dict] keeps its items
    in insertion order, with keys that are text; a float stands as the
    literal it was read from. *)
Inductive value :=
| VNone
| VBool (b : bool)
| VInt (n : Z)
| VFloat (lit : pystr)
| VStr (s : pystr)
| VList (items : list value)
| VDict (items : list (pystr * value)).

(** [d[k] = v] and [d.get(k)] on the items of a [dict]. *)
Fixpoint dict_setitem (k : pystr) (v : value) (d : list (pystr * value))
  : list (pystr * value) :=
  match d with
  | [] => [(k, v)]
  | (k', v') :: d' =>
      if bool_decide (k = k') then (k, v) :: d'
      else (k', v') :: dict_setitem k v d'
  end.

Fixpoint dict_get (k : pystr) (d : list (pystr * value)) : option value :=
  match d with
  | [] => None
  | (k', v) :: d' => if bool_decide (k = k') then Some v else dict_get k d'
  end.

(** *** Writing *)

Definition hexdigit (d : N) : N := if d <? 10 then 48 + d else 87 + d.

(** ['{0:04x}'.format(n)] for [n < 0x10000]. *)
Definition hex4 (n : N) : pystr :=
  [ hexdigit (n / 4096 mod 16); hexdigit (n / 256 mod 16);
    hexdigit (n / 16 mod 16); hexdigit (n mod 16) ].

(** The replacement of one character in [encode_basestring_ascii]. *)
Definition escape_char (c : N) : pystr :=
  if c =? 34 then u "\" ++ [34]
  else if c =? 92 then u "\\"
  else if c =? 10 then u "\n"
  else if c =? 13 then u "\r"
  else if c =? 9 then u "\t"
  else if c =? 12 then u "\f"
  else if c =? 8 then u "\b"
  else if (32 <=? c) && (c <=? 126) then [c]
  else if c <? 65536 then u "\u" ++ hex4 c
  else
    let n := c - 65536 in
    let s1 := N.lor 55296 (N.land (N.shiftr n 10) 1023) in
    let s2 := N.lor 56320 (N.land n 1023) in
    u "\u" ++ hex4 s1 ++ u "\u" ++ hex4 s2.

Definition encode_basestring_ascii (s : pystr) : pystr :=
  [34] ++ concat (escape_char <$> s) ++ [34].

(** Decimal digits, and [int.__repr__]. *)
Fixpoint uint_digits (d : Decimal.uint) : pystr :=
  match d with
  | Decimal.Nil => []
  | Decimal.D0 d => 48 :: uint_digits d
  | Decimal.D1 d => 49 :: uint_digits d
  | Decimal.D2 d => 50 :: uint_digits d
  | Decimal.D3 d => 51 :: uint_digits d
  | Decimal.D4 d => 52 :: uint_digits d
  | Decimal.D5 d => 53 :: uint_digits d
  | Decimal.D6 d => 54 :: uint_digits d
  | Decimal.D7 d => 55 :: uint_digits d
  | Decimal.D8 d => 56 :: uint_digits d
  | Decimal.D9 d => 57 :: uint_digits d
  end.

Definition int_repr (n : Z) : pystr :=
  match n with
  | Z.neg p => 45 :: uint_digits (Pos.to_uint p)
  | _ => uint_digits (N.to_uint (Z.to_N n))
  end.

(** [indent * level] for [indent=2]. *)
Definition indentation (level : nat) : pystr := replicate (2 * level) 32.

Section Json.
(** [float.__repr__] of the float a literal denotes, and [repr] of a
    text. *)
Variable float_repr : pystr → pystr.
Variable str_repr : pystr → pystr.

(** [json.dumps(o, indent=2, sort_keys=True, ensure_ascii=True)] at an
    indentation level. The items of a [dict] are written in the order
    of their keys. *)
Fixpoint encode (level : nat) (o : value) : pystr :=
  match o with
  | VNone => u "null"
  | VBool true => u "true"
  | VBool false => u "false"
  | VInt n => int_repr n
  | VFloat lit => float_repr lit
  | VStr s => encode_basestring_ascii s
  | VList [] => u "[]"
  | VList lst =>
      let newline_indent := 10 :: indentation (S level) in
      u "[" ++ newline_indent
      ++ join (44 :: newline_indent) (encode (S level) <$> lst)
      ++ 10 :: indentation level ++ u "]"
  | VDict [] => u "{}"
  | VDict dct =>
      let newline_indent := 10 :: indentation (S level) in
      let items :=
        list_sort fst
          ((λ kv, (kv.1, encode (S level) kv.2)) <$> dct) in
      u "{" ++ newline_indent
      ++ join (44 :: newline_indent)
           ((λ kv, encode_basestring_ascii kv.1 ++ u ": " ++ kv.2)
              <$> items)
      ++ 10 :: indentation level ++ u "}"
  end.

(** [repr(o)] and [str(o)]. *)
Fixpoint py_repr (o : value) : pystr :=
  match o with
  | VNone => u "None"
  | VBool true => u "True"
  | VBool false => u "False"
  | VInt n => int_repr n
  | VFloat lit => float_repr lit
  | VStr s => str_repr s
  | VList lst => u "[" ++ join (u ", ") (py_repr <$> lst) ++ u "]"
  | VDict dct =>
      u "{"
      ++ join (u ", ")
           ((λ kv, str_repr kv.1 ++ u ": " ++ py_repr kv.2) <$> dct)
      ++ u "}"
  end.

Definition py_str (o : value) : pystr :=
  match o with
  | VStr s => s
  | _ => py_repr o
  end.
End Json.

(** *** Reading *)

(** JSON whitespace. *)
Definition is_json_ws (c : N) : bool :=
  (c =? 32) || (c =? 9) || (c =? 10) || (c =? 13).

Definition skip_ws (s : pystr) : pystr := lstrip_of is_json_ws s.

(** The four hexadecimal digits of a [\u] escape. *)
Definition decode_hex4 (h1 h2 h3 h4 : N) : option N :=
  if is_hexdigit h1 && is_hexdigit h2 && is_hexdigit h3 && is_hexdigit h4
  then Some (int_of 16 [h1; h2; h3; h4])
  else None.

(** The character of a one-letter escape. *)
Definition backslash (e : N) : option N :=
  if e =? 34 then Some 34
  else if e =? 92 then Some 92
  else if e =? 47 then Some 47
  else if e =? 98 then Some 8
  else if e =? 102 then Some 12
  else if e =? 110 then Some 10
  else if e =? 114 then Some 13
  else if e =? 116 then Some 9
  else None.

Definition is_high_surrogate (c : N) : bool := (55296 <=? c) && (c <=? 56319).
Definition is_low_surrogate (c : N) : bool := (56320 <=? c) && (c <=? 57343).

Definition join_surrogates (hi lo : N) : N :=
  65536 + N.lor (N.shiftl (hi - 55296) 10) (lo - 56320).

(** [scanstring] (strict), after the opening quote: the text and what
    follows the closing quote. [None] is a [JSONDecodeError]. *)
Fixpoint scanstring (s : pystr) : option (pystr * pystr) :=
  match s with
  | [] => None
  | c :: r =>
      if c =? 34 then Some ([], r)
      else if c <? 32 then None
      else if c =? 92 then
        match r with
        | [] => None
        | e :: r1 =>
            if e =? 117 then
              match r1 with
              | h1 :: h2 :: h3 :: h4 :: r2 =>
                  match decode_hex4 h1 h2 h3 h4 with
                  | None => None
                  | Some uni =>
                      let single :=
                        match scanstring r2 with
                        | Some (t, rest) => Some (uni :: t, rest)
                        | None => None
                        end in
                      if is_high_surrogate uni then
                        match r2 with
                        | b :: v :: g1 :: g2 :: g3 :: g4 :: r3 =>
                            if (b =? 92) && (v =? 117) then
                              match decode_hex4 g1 g2 g3 g4 with
                              | None => None
                              | Some uni2 =>
                                  if is_low_surrogate uni2 then
                                    match scanstring r3 with
                                    | Some (t, rest) =>
                                        Some (join_surrogates uni uni2 :: t,
                                              rest)
                                    | None => None
                                    end
                                  else single
                              end
                            else single
                        | _ => single
                        end
                      else single
                  end
              | _ => None
              end
            else
              match backslash e with
              | None => None
              | Some x =>
                  match scanstring r1 with
                  | Some (t, rest) => Some (x :: t, rest)
                  | None => None
                  end
              end
        end
      else
        match scanstring r with
        | Some (t, rest) => Some (c :: t, rest)
        | None => None
        end
  end.

(** The number pattern [NUMBER_RE], group by group at the head of [s]:
    the integer (an optional [-], then [0] or digits that do not start
    with [0]), the optional fraction ([.] and digits) and the optional
    exponent ([e] or [E], an optional sign, digits). *)
Definition digits_of (s : pystr) : pystr := take_upto (length s) is_digit s.

Definition match_integer (s : pystr) : option pystr :=
  let sign := match s with c :: _ => if c =? 45 then [45] else [] | [] => [] end in
  match drop (length sign) s with
  | c :: r =>
      if c =? 48 then Some (sign ++ [48])
      else if is_digit c then Some (sign ++ c :: digits_of r)
      else None
  | [] => None
  end.

Definition match_frac (s : pystr) : pystr :=
  match s with
  | c :: r =>
      if c =? 46 then
        match digits_of r with
        | [] => []
        | ds => 46 :: ds
        end
      else []
  | [] => []
  end.

Definition match_exp (s : pystr) : pystr :=
  match s with
  | e :: r =>
      if (e =? 101) || (e =? 69) then
        let sign :=
          match r with
          | c :: _ => if (c =? 45) || (c =? 43) then [c] else []
          | [] => []
          end in
        match digits_of (drop (length sign) r) with
        | [] => []
        | ds => e :: sign ++ ds
        end
      else []
  | [] => []
  end.

(** [int(integer)] for the text of the first group. *)
Definition int_value (integer : pystr) : Z :=
  match integer with
  | c :: ds =>
      if c =? 45 then (- Z.of_N (int_of 10 ds))%Z
      else Z.of_N (int_of 10 integer)
  | [] => 0%Z
  end.

Definition match_number (s : pystr) : option (value * pystr) :=
  match match_integer s with
  | None => None
  | Some integer =>
      let s1 := drop (length integer) s in
      let frac := match_frac s1 in
      let s2 := drop (length frac) s1 in
      let exp := match_exp s2 in
      let rest := drop (length exp) s2 in
      match frac ++ exp with
      | [] => Some (VInt (int_value integer), rest)
      | _ => Some (VFloat (integer ++ frac ++ exp), rest)
      end
  end.

(** A constant at the head of [s]. *)
Definition constant (name : pystr) (v : value) (s : pystr)
  : option (value * pystr) :=
  if startswith name s then Some (v, drop (length name) s) else None.

(** [dict(pairs)]. *)
Definition dict_of_pairs (pairs : list (pystr * value))
  : list (pystr * value) :=
  foldl (λ d kv, dict_setitem kv.1 kv.2 d) [] pairs.

(** The values [scan_once] reads that are neither a text nor a list nor
    an object: [null], [true], [false], a number, [NaN], [Infinity] and
    [-Infinity], tried in this order. *)
Definition scan_scalar (s : pystr) : option (value * pystr) :=
  match constant (u "null") VNone s with
  | Some res => Some res
  | None =>
  match constant (u "true") (VBool true) s with
  | Some res => Some res
  | None =>
  match constant (u "false") (VBool false) s with
  | Some res => Some res
  | None =>
  match match_number s with
  | Some res => Some res
  | None =>
  match constant (u "NaN") (VFloat (u "NaN")) s with
  | Some res => Some res
  | None =>
  match constant (u "Infinity") (VFloat (u "Infinity")) s with
  | Some res => Some res
  | None => constant (u "-Infinity") (VFloat (u "-Infinity")) s
  end end end end end end.

(** [scan_once], and the loops of [JSONArray] (after [[] and the
    whitespace behind it, the text not starting with []]) and of
    [JSONObject] (at the quote of a key). [None] is a [JSONDecodeError];
    the fuel bounds the number of values on one path. *)
Fixpoint scan_once (fuel : nat) (s : pystr) : option (value * pystr) :=
  match fuel with
  | O => None
  | S fuel' =>
      match s with
      | [] => None
      | c :: r =>
          if c =? 34 then
            match scanstring r with
            | Some (t, rest) => Some (VStr t, rest)
            | None => None
            end
          else if c =? 123 then
            match skip_ws r with
            | c1 :: r1 =>
                if c1 =? 125 then Some (VDict [], r1)
                else
                  match object_items fuel' (c1 :: r1) with
                  | Some (pairs, rest) => Some (VDict (dict_of_pairs pairs), rest)
                  | None => None
                  end
            | [] => None
            end
          else if c =? 91 then
            match skip_ws r with
            | c1 :: r1 =>
                if c1 =? 93 then Some (VList [], r1)
                else
                  match array_items fuel' (c1 :: r1) with
                  | Some (values, rest) => Some (VList values, rest)
                  | None => None
                  end
            | [] => None
            end
          else scan_scalar s
      end
  end

with array_items (fuel : nat) (s : pystr) : option (list value * pystr) :=
  match fuel with
  | O => None
  | S fuel' =>
      match scan_once fuel' s with
      | None => None
      | Some (v, rest) =>
          match skip_ws rest with
          | c :: r =>
              if c =? 93 then Some ([v], r)
              else if c =? 44 then
                match array_items fuel' (skip_ws r) with
                | Some (values, rest') => Some (v :: values, rest')
                | None => None
                end
              else None
          | [] => None
          end
      end
  end

with object_items (fuel : nat) (s : pystr)
  : option (list (pystr * value) * pystr) :=
  match fuel with
  | O => None
  | S fuel' =>
      match s with
      | q :: r =>
          if q =? 34 then
            match scanstring r with
            | None => None
            | Some (key, rest) =>
                match skip_ws rest with
                | c :: r1 =>
                    if c =? 58 then
                      match scan_once fuel' (skip_ws r1) with
                      | None => None
                      | Some (v, rest1) =>
                          match skip_ws rest1 with
                          | c2 :: r2 =>
                              if c2 =? 125 then Some ([(key, v)], r2)
                              else if c2 =? 44 then
                                match object_items fuel' (skip_ws r2) with
                                | Some (pairs, rest2) =>
                                    Some ((key, v) :: pairs, rest2)
                                | None => None
                                end
                              else None
                          | [] => None
                          end
                      end
                    else None
                | [] => None
                end
            end
          else None
      | [] => None
      end
  end.

(** [json.loads(s)]. Every value read takes one character at least, so
    the fuel given here is never what stops the reading (lemma
    [json_loads_fuel]). Python's limits on the depth of nesting and on
    the number of digits of an integer are not modelled. *)
Definition json_loads (s : pystr) : option value :=
  if startswith [65279] s then None
  else
    match scan_once (2 * length s + 2) (skip_ws s) with
    | Some (obj, rest) =>
        match skip_ws rest with
        | [] => Some obj
        | _ :: _ => None
        end
    | None => None
    end.

(** ** Files and the run *)

(** The exceptions the script can end with. *)
Inductive exn := JSONDecodeError | AttributeError.

(** The text files, by path; a path stands for the file it names.
    Directories, permissions and the encoding of the text are the
    operating system's and are not modelled: a write succeeds. Two
    texts that [Path] or the operating system take for one file
    ([./a] and [a]) are two paths here, so the properties of the run
    tell what the files it names hold, never that a file was left alone
    because its name is another text. *)
Abbreviation filesystem := (gmap pystr pystr).

Definition SOURCE_URL : pystr :=
  u "https://www.dragonsteelbooks.com/search?q=signed".

(** [Path(dir) / name], as the text [dir/name], which names the same
    file; how [Path] tidies the text (a [/] at the end of [dir] or
    repeated, a [.] part) is not modelled. *)
Definition path_join (dir name : pystr) : pystr := dir ++ u "/" ++ name.

(** [args]: the options of the command line; argparse leaves [None] for
    an option that is not given. *)
Record namespace := {
  output : option pystr;
  output_dir : option pystr;
  latest : option pystr;
  previous : option pystr;
  diff : option pystr;
  issue_body : option pystr;
  issue_title : option pystr
}.

(** What a run leaves: the files and the text on the diagnostic stream. *)
Record world := {
  files : filesystem;
  stderr : pystr
}.

(** The snapshot of a run: [payload] in [main]. *)
Definition snapshot (timestamp source_url : pystr) (titles : list pystr)
  : value :=
  VDict [ (u "timestamp", VStr timestamp);
          (u "source_url", VStr source_url);
          (u "titles", VList (VStr <$> titles)) ].

Section Run.
Variable T : html_tables.
Variable casefold : pystr → pystr.
Variable unicode_tolower : N → N.
Variable unicode_isalnum : N → bool.
Variable feed : pystr → list starttag.
Variable float_repr : pystr → pystr.
Variable str_repr : pystr → pystr.

Definition write_json (path : pystr) (payload : value) (fs : filesystem)
  : filesystem :=
  <[path := encode float_repr 0 payload ++ [10]]> fs.

Definition load_titles (path : pystr) (fs : filesystem)
  : exn + list pystr :=
  match fs !! path with
  | None => inr []
  | Some text =>
      match json_loads text with
      | None => inl JSONDecodeError
      | Some (VDict data) =>
          let titles := default (VList []) (dict_get (u "titles") data) in
          match titles with
          | VList titles => inr (py_str float_repr str_repr <$> titles)
          | _ => inr []
          end
      | Some _ => inl AttributeError
      end
  end.

(** [main], given the two renderings of the time of the run and the
    text [fetch_html(SOURCE_URL)] returned. The result is the exit code
    or the exception the run ends with. The exceptions are those of
    [load_titles]: the [TypeError] of [Path(None)] in a run that is
    given no place for the snapshot, and the [UnicodeEncodeError] of
    [write_text] on a text with a surrogate, are not modelled. *)
Definition main (args : namespace) (timestamp file_timestamp : pystr)
    (html_text : pystr) (w : world) : (exn + Z) * world :=
  let titles :=
    extract_titles T casefold unicode_tolower unicode_isalnum feed
      html_text in
  match titles with
  | [] =>
      (inr 2%Z,
       {| files := files w;
          stderr := stderr w
            ++ u "No signed titles found; refusing to write empty snapshot."
            ++ [10] |})
  | _ :: _ =>
      let payload := snapshot timestamp SOURCE_URL titles in
      let output_path :=
        if truthy (output_dir args)
        then path_join (default [] (output_dir args))
               (file_timestamp ++ u ".json")
        else default [] (output args) in
      let fs := write_json output_path payload (files w) in
      let fs :=
        if truthy (latest args)
        then write_json (default [] (latest args)) payload fs
        else fs in
      let loaded :=
        if truthy (previous args)
        then load_titles (default [] (previous args)) fs
        else inr [] in
      match loaded with
      | inl e => (inl e, {| files := fs; stderr := stderr w |})
      | inr previous_titles =>
          let fs :=
            if truthy (diff args) || truthy (issue_body args)
               || truthy (issue_title args)
            then
              let '(added, removed) :=
                diff_titles casefold previous_titles titles in
              let diff_payload :=
                VDict [ (u "timestamp", VStr timestamp);
                        (u "added", VList (VStr <$> added));
                        (u "removed", VList (VStr <$> removed));
                        (u "current", VList (VStr <$> titles));
                        (u "previous", VList (VStr <$> previous_titles)) ] in
              let fs :=
                if truthy (diff args)
                then write_json (default [] (diff args)) diff_payload fs
                else fs in
              let fs :=
                if truthy (issue_body args)
                then <[default [] (issue_body args) :=
                         format_issue_body casefold titles added removed]> fs
                else fs in
              if truthy (issue_title args)
              then <[default [] (issue_title args) :=
                       format_issue_title added removed ++ [10]]> fs
              else fs
            else fs in
          (inr 0%Z, {| files := fs; stderr := stderr w |})
      end
  end.
End Run.

(** ** Tables for running the model on ASCII text *)

(** ASCII case folding: what [str.casefold] does on ASCII text. *)
Definition ascii_tolower (c : N) : N :=
  if (65 <=? c) && (c <=? 90) then c + 32 else c.

Definition ascii_casefold (s : pystr) : pystr := ascii_tolower <$> s.

(** The alphanumeric ASCII characters. *)
Definition ascii_isalnum (c : N) : bool :=
  is_digit c || ((65 <=? c) && (c <=? 90)) || ((97 <=? c) && (c <=? 122)).

(** The five references of XML among those of [html.entities.html5],
    with the forms that lack the [;]. The tables of the numeric
    references are left empty: the sample inputs hold no numeric
    reference. *)
Definition xml_tables : html_tables := {|
  html5 := list_to_map
    [ (u "amp;", u "&"); (u "amp", u "&");
      (u "lt;", u "<"); (u "lt", u "<");
      (u "gt;", u ">"); (u "gt", u ">");
      (u "quot;", [34]); (u "quot", [34]);
      (u "apos;", u "'") ];
  invalid_charrefs := ∅;
  invalid_codepoints := ∅
|}.

(** ** Vocabulary of the properties *)

(** [x] occurs in [s] as a contiguous piece. *)
Definition occurs_in (x s : pystr) : Prop := ∃ pre post, s = pre ++ x ++ post.

(** The characters Markdown escaping is about: [\ * _ ` [ ]]. *)
Definition markdown_special (c : N) : bool :=
  bool_decide (c ∈ [92; 42; 95; 96; 91; 93]).

(** One character, with a backslash in front when it is special. *)
Definition backslash_prefixed (c : N) : pystr :=
  if markdown_special c then [92; c] else [c].

(** Whitespace as the normalizer leaves it: spaces only, no two in a
    row. *)
Definition starts_with_space (s : pystr) : bool :=
  match s with
  | c :: _ => isspace c
  | [] => false
  end.

Fixpoint single_spaced (s : pystr) : bool :=
  match s with
  | [] => true
  | c :: s' =>
      (if isspace c then (c =? 32) && negb (starts_with_space s') else true)
      && single_spaced s'
  end.

Section Keyword.
Variable unicode_tolower : N → N.
Variable unicode_isalnum : N → bool.

(** [w] is the keyword but for the case of its letters: character by
    character, the lower case of [w] is one of the codes of the
    pattern. *)
Definition keyword_ignoring_case (w : pystr) : Prop :=
  Forall2 (λ c cs, unicode_tolower c ∈ cs) w SIGNED_codes.

(** The keyword stands in [title] as a whole word: there is a word
    boundary in front of it and one behind it. *)
Definition keyword_as_word (title : pystr) : Prop :=
  ∃ pre w post,
    title = pre ++ w ++ post
    ∧ keyword_ignoring_case w
    ∧ at_boundary unicode_isalnum (last pre) (head w) = true
    ∧ at_boundary unicode_isalnum (last w) (head post) = true.

(** What the filter of [extract_titles] lets through. *)
Definition passes_filter (title : pystr) : Prop :=
  title ≠ [] ∧ SIGNED_search unicode_tolower unicode_isalnum title = true.
End Keyword.

(** The code points of a [str] are those of Unicode. *)
Definition is_text (s : pystr) : Prop := Forall (λ c, c ≤ 1114111) s.

(** No high surrogate of [s] has a low surrogate just behind it, as in
    every text decoded from UTF-8. *)
Fixpoint no_surrogate_pair (s : pystr) : bool :=
  match s with
  | [] => true
  | c :: r =>
      negb (is_high_surrogate c
            && match r with lo :: _ => is_low_surrogate lo | [] => false end)
      && no_surrogate_pair r
  end.

(** The two surrogates [escape_char] writes for a code point past
    [0xFFFF]. *)
Definition surrogates_of (c : N) : N * N :=
  (N.lor 55296 (N.land (N.shiftr (c - 65536) 10) 1023),
   N.lor 56320 (N.land (c - 65536) 1023)).

(** A text as it is read back after it was written: the two surrogates
    of one code point make that code point again, and so do a high and a
    low surrogate that stood side by side in the text. *)
Fixpoint json_reread (s : pystr) : pystr :=
  match s with
  | [] => []
  | c :: r =>
      if 65536 <=? c then
        join_surrogates (surrogates_of c).1 (surrogates_of c).2
        :: json_reread r
      else
        match r with
        | lo :: r' =>
            if is_high_surrogate c && is_low_surrogate lo
            then join_surrogates c lo :: json_reread r'
            else c :: json_reread r
        | [] => [c]
        end
  end.

(** The value an attribute has in a start tag: that of its last
    occurrence, [None] inside when it stands without [=]. *)
Definition attr_value (a : attrs) (name : pystr) : option (option pystr) :=
  snd <$> last (filter (λ kv, kv.1 = name) a).

(** The characters of a JSON text written with [ensure_ascii]: the line
    feed and the printable ASCII characters. *)
Definition json_ascii (c : N) : Prop := c = 10 ∨ (32 ≤ c ∧ c ≤ 126).

(** A value that holds no float, as the payloads [main] writes. *)
Fixpoint no_float (o : value) : bool :=
  match o with
  | VFloat _ => false
  | VList items => forallb no_float items
  | VDict items => forallb (λ kv, no_float kv.2) items
  | _ => true
  end.

(** A text [str.encode("utf-8")] accepts: it holds no surrogate. *)
Definition utf8_encodable (s : pystr) : Prop :=
  Forall (λ c, c ≤ 1114111 ∧ is_high_surrogate c = false
               ∧ is_low_surrogate c = false) s.

(** The command line names a place for the snapshot: [--output-dir] or
    [--output] has a value that is not empty. *)
Definition has_output (args : namespace) : bool :=
  truthy (output_dir args) || truthy (output args).

(** [output_path] in [main]. *)
Definition snapshot_path (args : namespace) (file_timestamp : pystr) : pystr :=
  if truthy (output_dir args)
  then path_join (default [] (output_dir args)) (file_timestamp ++ u ".json")
  else default [] (output args).

Section Phases.
Variable casefold : pystr → pystr.
Variable float_repr : pystr → pystr.

(** The files after the two calls of [write_json] on the snapshot in
    [main]. *)
Definition snapshots_written (args : namespace)
    (timestamp file_timestamp : pystr) (titles : list pystr)
    (fs : filesystem) : filesystem :=
  let payload := snapshot timestamp SOURCE_URL titles in
  let fs :=
    write_json float_repr (snapshot_path args file_timestamp) payload fs in
  if truthy (latest args)
  then write_json float_repr (default [] (latest args)) payload fs
  else fs.

(** The files after the block of [main] that writes the diff, the issue
    body and the issue title. *)
Definition reports_written (args : namespace) (timestamp : pystr)
    (titles previous_titles : list pystr) (fs : filesystem) : filesystem :=
  if truthy (diff args) || truthy (issue_body args)
     || truthy (issue_title args)
  then
    let d := diff_titles casefold previous_titles titles in
    let diff_payload :=
      VDict [ (u "timestamp", VStr timestamp);
              (u "added", VList (VStr <$> d.1));
              (u "removed", VList (VStr <$> d.2));
              (u "current", VList (VStr <$> titles));
              (u "previous", VList (VStr <$> previous_titles)) ] in
    let fs :=
      if truthy (diff args)
      then write_json float_repr (default [] (diff args)) diff_payload fs
      else fs in
    let fs :=
      if truthy (issue_body args)
      then <[default [] (issue_body args) :=
               format_issue_body casefold titles d.1 d.2]> fs
      else fs in
    if truthy (issue_title args)
    then <[default [] (issue_title args) :=
             format_issue_title d.1 d.2 ++ [10]]> fs
    else fs
  else fs.
End Phases.

(** ** Sample inputs *)

(** The start tags of a page whose only product link is not a signed
    Elantris title, and a command line with every output option. *)
Definition mistborn_page : list starttag :=
  [ (u "a", [ (u "href", Some (u "/products/mistborn-box-set"));
              (u "title", Some (u "Mistborn Box Set")) ]) ].

Definition all_outputs : namespace := {|
  output := Some (u "data/snapshot.json");
  output_dir := None;
  latest := Some (u "data/latest.json");
  previous := Some (u "data/latest.json");
  diff := Some (u "out/diff.json");
  issue_body := Some (u "out/body.md");
  issue_title := Some (u "out/title.txt")
|}.

(** The start tags of a page with two signed Elantris titles among its
    product links; a command line that asks for snapshots only, and one
    for a first run, without [--previous]. *)
Definition elantris_page : list starttag :=
  [ (u "a", [ (u "href", Some (u "/products/elantris-signed"));
              (u "title", Some (u "Elantris  (Signed)")) ]);
    (u "a", [ (u "href", Some (u "/products/mistborn-box-set"));
              (u "title", Some (u "Mistborn Box Set")) ]);
    (u "a", [ (u "href", Some (u "/products/elantris-anniversary"));
              (u "title", Some (u "elantris: 10th Anniversary")) ]) ].

Definition snapshot_only : namespace := {|
  output := None;
  output_dir := Some (u "data/snapshots");
  latest := Some (u "data/latest.json");
  previous := Some (u "data/previous.json");
  diff := None;
  issue_body := None;
  issue_title := None
|}.

Definition first_run : namespace := {|
  output := None;
  output_dir := Some (u "data/snapshots");
  latest := Some (u "data/latest.json");
  previous := None;
  diff := None;
  issue_body := None;
  issue_title := Some (u "out/title.txt")
|}.

(** ** Tactics *)

(** Case analysis on the comparisons of the goal. *)
Ltac compare_cases :=
  repeat match goal with
    | |- context [N.leb ?a ?b] => destruct (N.leb_spec a b)
    | |- context [N.ltb ?a ?b] => destruct (N.ltb_spec a b)
    | |- context [N.eqb ?a ?b] => destruct (N.eqb_spec a b)
    end;
  simpl; try lia; try done.

(** * Properties *)

(** ** Order on text *)

Lemma str_ltb_irrefl a : str_ltb a a = false.
Proof.
  induction a as [|x a IH]; simpl; [done|].
  by rewrite N.ltb_irrefl.
Qed.

Lemma str_ltb_trans a b c :
  str_ltb a b = true → str_ltb b c = true → str_ltb a c = true.
Proof.
  revert b c. induction a as [|x a IH]; intros [|y b] [|z c]; simpl; try done.
  destruct (N.ltb_spec x y), (N.ltb_spec y x), (N.ltb_spec y z),
    (N.ltb_spec z y), (N.ltb_spec x z), (N.ltb_spec z x);
    try done; try lia.
  apply IH.
Qed.

Lemma str_ltb_total a b :
  str_ltb a b = false → str_ltb b a = false → a = b.
Proof.
  revert b. induction a as [|x a IH]; intros [|y b]; simpl; try done.
  destruct (N.ltb_spec x y), (N.ltb_spec y x); try done; try lia.
  intros ??. f_equal; [lia | by apply IH].
Qed.

Lemma str_ltb_asym a b : str_ltb a b = true → str_ltb b a = false.
Proof.
  intros Hab. destruct (str_ltb b a) eqn:Hba; [|done].
  pose proof (str_ltb_trans _ _ _ Hab Hba) as Haa.
  by rewrite str_ltb_irrefl in Haa.
Qed.

Lemma str_ltb_neg_trans a b c :
  str_ltb b a = false → str_ltb c b = false → str_ltb c a = false.
Proof.
  intros Hab Hbc. destruct (str_ltb c a) eqn:Hca; [|done].
  destruct (str_ltb a b) eqn:Hab'.
  - by rewrite (str_ltb_trans _ _ _ Hca Hab') in Hbc.
  - rewrite (str_ltb_total _ _ Hab' Hab) in Hca. congruence.
Qed.

Lemma str_le_refl a : str_le a a.
Proof. apply str_ltb_irrefl. Qed.

Lemma str_le_trans a b c : str_le a b → str_le b c → str_le a c.
Proof. unfold str_le. intros. by eapply str_ltb_neg_trans. Qed.

Lemma str_le_total a b : str_le a b ∨ str_le b a.
Proof.
  unfold str_le. destruct (str_ltb b a) eqn:Hba; [right|by left].
  by apply str_ltb_asym.
Qed.

(** ** The sort *)
Section SortFacts.
Context {A : Type} (key : A → pystr).

Lemma sort_insert_perm x l : sort_insert key x l ≡ₚ x :: l.
Proof.
  induction l as [|y l IH]; simpl; [done|].
  destruct (str_ltb (key y) (key x)); [|done].
  rewrite IH. apply Permutation_swap.
Qed.

Lemma list_sort_perm l : list_sort key l ≡ₚ l.
Proof.
  induction l as [|x l IH]; simpl; [done|].
  unfold list_sort in *. by rewrite sort_insert_perm, IH.
Qed.

Lemma sort_insert_sorted x l :
  StronglySorted (key_le key) l →
  StronglySorted (key_le key) (sort_insert key x l).
Proof.
  induction 1 as [|y l Hl IH Hy]; simpl.
  { repeat constructor. }
  destruct (str_ltb (key y) (key x)) eqn:Hyx.
  - constructor; [done|].
    rewrite sort_insert_perm. constructor; [|done].
    by apply str_ltb_asym.
  - constructor; [by constructor|].
    constructor; [done|].
    eapply Forall_impl; [exact Hy|].
    intros z Hz. by eapply str_le_trans.
Qed.

Lemma list_sort_sorted l : StronglySorted (key_le key) (list_sort key l).
Proof.
  induction l as [|x l IH]; simpl; [constructor|].
  by apply sort_insert_sorted.
Qed.

(** A sorted list is left as it is. *)
Lemma list_sort_id l :
  StronglySorted (key_le key) l → list_sort key l = l.
Proof.
  induction 1 as [|x l Hl IH Hx]; simpl; [done|].
  unfold list_sort in *. simpl. rewrite IH.
  destruct Hx as [|y l Hy _]; simpl; [done|].
  by rewrite Hy.
Qed.

(** Stability: the elements of one key keep their order. *)
Lemma sort_insert_filter (P : A → bool) x l :
  (∀ y, y ∈ l → P y = true → P x = true →
        str_ltb (key y) (key x) = false) →
  List.filter P (sort_insert key x l) = List.filter P (x :: l).
Proof.
  induction l as [|y l IH]; intros Hk; simpl; [done|].
  destruct (str_ltb (key y) (key x)) eqn:Hyx; [|done].
  simpl. rewrite IH by (intros; apply Hk; [by right|done..]).
  simpl. destruct (P y) eqn:Hy, (P x) eqn:Hx; try done.
  rewrite Hk in Hyx; [done|by left|done..].
Qed.

Lemma list_sort_stable k l :
  List.filter (λ x, bool_decide (key x = k)) (list_sort key l)
  = List.filter (λ x, bool_decide (key x = k)) l.
Proof.
  unfold list_sort. induction l as [|x l IH]; simpl; [done|].
  rewrite sort_insert_filter.
  - simpl. by rewrite IH.
  - intros y _ Hy Hx.
    apply bool_decide_eq_true in Hy, Hx. rewrite Hy, Hx.
    apply str_ltb_irrefl.
Qed.
End SortFacts.

(** ** Stripping and joining *)

Lemma lstrip_of_split p s :
  ∃ ws, s = ws ++ lstrip_of p s ∧ Forall (λ c, p c = true) ws.
Proof.
  induction s as [|c s (ws & Hs & Hws)]; simpl.
  { by exists []. }
  destruct (p c) eqn:Hc.
  - exists (c :: ws). split; [by rewrite <- app_comm_cons, <- Hs|].
    by constructor.
  - by exists [].
Qed.

Lemma lstrip_of_head p s :
  lstrip_of p s = [] ∨ ∃ c r, lstrip_of p s = c :: r ∧ p c = false.
Proof.
  induction s as [|c s IH]; simpl; [by left|].
  destruct (p c) eqn:Hc; [done|]. right. by exists c, s.
Qed.

Lemma lstrip_of_all p ws : Forall (λ c, p c = true) ws → lstrip_of p ws = [].
Proof. induction 1 as [|c ws Hc _ IH]; simpl; [done|]. by rewrite Hc. Qed.

Lemma lstrip_of_app p a b :
  lstrip_of p (a ++ b)
  = match lstrip_of p a with
    | [] => lstrip_of p b
    | _ :: _ => lstrip_of p a ++ b
    end.
Proof.
  induction a as [|c a IH]; simpl; [done|].
  by destruct (p c).
Qed.

Lemma rstrip_of_split p s :
  ∃ ws, s = rstrip_of p s ++ ws ∧ Forall (λ c, p c = true) ws.
Proof.
  destruct (lstrip_of_split p (reverse s)) as (ws & Hs & Hws).
  exists (reverse ws). split.
  - unfold rstrip_of. rewrite <- reverse_app, <- Hs. by rewrite reverse_involutive.
  - by apply Forall_reverse.
Qed.

Lemma rstrip_of_last p s :
  rstrip_of p s = [] ∨ ∃ r c, rstrip_of p s = r ++ [c] ∧ p c = false.
Proof.
  unfold rstrip_of.
  destruct (lstrip_of_head p (reverse s)) as [->|(c & r & -> & Hc)];
    [by left|right].
  exists (reverse r), c. by rewrite reverse_cons.
Qed.

Lemma rstrip_of_app_keep p a b :
  rstrip_of p b ≠ [] → rstrip_of p (a ++ b) = a ++ rstrip_of p b.
Proof.
  unfold rstrip_of. intros Hb. rewrite reverse_app, lstrip_of_app.
  destruct (lstrip_of p (reverse b)) as [|c r] eqn:Hr; [done|].
  by rewrite reverse_app, reverse_involutive.
Qed.

Lemma rstrip_of_app_drop p a b :
  rstrip_of p b = [] → rstrip_of p (a ++ b) = rstrip_of p a.
Proof.
  unfold rstrip_of. intros Hb. rewrite reverse_app, lstrip_of_app.
  destruct (lstrip_of p (reverse b)) as [|c r] eqn:Hr; [done|].
  rewrite reverse_cons in Hb. by destruct (reverse r).
Qed.

Lemma rstrip_of_all p ws :
  Forall (λ c, p c = true) ws → rstrip_of p ws = [].
Proof.
  intros Hws. unfold rstrip_of.
  by rewrite lstrip_of_all by by apply Forall_reverse.
Qed.

Lemma rstrip_of_snoc_keep p r c :
  p c = false → rstrip_of p (r ++ [c]) = r ++ [c].
Proof.
  intros Hc. rewrite rstrip_of_app_keep; unfold rstrip_of; simpl;
    by rewrite Hc.
Qed.

Lemma occurs_in_refl x : occurs_in x x.
Proof. exists [], []. by rewrite app_nil_r. Qed.

Lemma occurs_in_nil s : occurs_in [] s.
Proof. by exists [], s. Qed.

Lemma occurs_in_trans x y z : occurs_in x y → occurs_in y z → occurs_in x z.
Proof.
  intros (a & b & ->) (c & d & ->). exists (c ++ a), (b ++ d).
  by rewrite <- !app_assoc.
Qed.

Lemma occurs_in_app_l x a s : occurs_in x s → occurs_in x (a ++ s).
Proof. intros (c & d & ->). exists (a ++ c), d. by rewrite <- !app_assoc. Qed.

Lemma occurs_in_app_r x s b : occurs_in x s → occurs_in x (s ++ b).
Proof. intros (c & d & ->). exists c, (d ++ b). by rewrite <- !app_assoc. Qed.

(** What stripping leaves of a piece is still there after the whole text
    is stripped. *)
Lemma rstrip_of_occurs p a l b :
  occurs_in (rstrip_of p l) (rstrip_of p (a ++ l ++ b)).
Proof.
  destruct (decide (rstrip_of p l = [])) as [->|Hl]; [apply occurs_in_nil|].
  destruct (decide (rstrip_of p b = [])) as [Hb|Hb].
  - rewrite app_assoc, (rstrip_of_app_drop _ _ _ Hb).
    rewrite rstrip_of_app_keep by done.
    apply occurs_in_app_l, occurs_in_refl.
  - rewrite app_assoc, (rstrip_of_app_keep _ _ _ Hb), <- app_assoc.
    apply occurs_in_app_l, occurs_in_app_r.
    destruct (rstrip_of_split p l) as (ws & Hs & _).
    rewrite Hs at 2. apply occurs_in_app_r, occurs_in_refl.
Qed.

Lemma join_elem_of sep (l : pystr) lines :
  l ∈ lines → ∃ a b, join sep lines = a ++ l ++ b.
Proof.
  induction lines as [|x lines IH]; [by intros ?%elem_of_nil|].
  intros [->|Hin]%elem_of_cons.
  - destruct lines as [|y lines]; simpl.
    + exists [], []. by rewrite app_nil_r.
    + by exists [], (sep ++ join sep (y :: lines)).
  - destruct (IH Hin) as (a & b & Hj).
    destruct lines as [|y lines]; [by apply elem_of_nil in Hin|].
    change (join sep (x :: y :: lines))
      with (x ++ sep ++ join sep (y :: lines)).
    rewrite Hj. exists (x ++ sep ++ a), b. by rewrite <- !app_assoc.
Qed.

(** ** The differ *)
Section DifferFacts.
Variable casefold : pystr → pystr.

Lemma diff_titles_fst previous current :
  (diff_titles casefold previous current).1
  = list_sort casefold
      (filter (λ t, casefold t ∉ casefold <$> previous) current).
Proof.
  unfold diff_titles. simpl. f_equal.
  apply list_filter_iff. intros t. by rewrite elem_of_list_to_set.
Qed.

Lemma diff_titles_snd previous current :
  (diff_titles casefold previous current).2
  = list_sort casefold
      (filter (λ t, casefold t ∉ casefold <$> current) previous).
Proof.
  unfold diff_titles. simpl. f_equal.
  apply list_filter_iff. intros t. by rewrite elem_of_list_to_set.
Qed.

Lemma filter_own_keys (l : list pystr) :
  filter (λ t, casefold t ∉ casefold <$> l) l = [].
Proof.
  assert (∀ k : list pystr, k ⊆ l →
    filter (λ t, casefold t ∉ casefold <$> l) k = []) as Hk.
  { induction k as [|t k IH]; intros Hsub; [done|].
    rewrite filter_cons_False.
    - apply IH. set_solver.
    - intros Hn. apply Hn, list_elem_of_fmap_2. set_solver. }
  by apply Hk.
Qed.
End DifferFacts.

(** C4. [diff_titles] is total, and for all [previous] and [current]:
    [added] holds exactly the current titles whose case-folded form is
    the case-folded form of no previous title, in their own casing, and is
    sorted by case-folded form; [removed] holds exactly the previous
    titles whose case-folded form is that of no current title, in their
    own casing, sorted the same way; an empty [current] gives an empty
    [added], an empty [previous] an empty [removed], and two empty lists
    give two empty lists. *)
Theorem diff_titles_spec (casefold : pystr → pystr)
    (previous current : list pystr) :
  let d := diff_titles casefold previous current in
  d.1 ≡ₚ filter (λ t, casefold t ∉ casefold <$> previous) current
  ∧ StronglySorted (key_le casefold) d.1
  ∧ d.2 ≡ₚ filter (λ t, casefold t ∉ casefold <$> current) previous
  ∧ StronglySorted (key_le casefold) d.2
  ∧ (diff_titles casefold previous []).1 = []
  ∧ (diff_titles casefold [] current).2 = []
  ∧ diff_titles casefold [] [] = ([], []).
Proof.
  cbv zeta. rewrite !diff_titles_fst, !diff_titles_snd.
  split_and!; try apply list_sort_perm; try apply list_sort_sorted; done.
Qed.

(** C9. For every title list [A], [diff_titles(A, A)] gives an empty
    [added] and an empty [removed]. *)
Theorem diff_titles_same (casefold : pystr → pystr) (A : list pystr) :
  diff_titles casefold A A = ([], []).
Proof.
  rewrite (surjective_pairing (diff_titles casefold A A)).
  by rewrite diff_titles_fst, diff_titles_snd, filter_own_keys.
Qed.

(** ** The issue title *)

(** C5. [format_issue_title] returns the empty text exactly when [added]
    and [removed] are both empty; the generic label whenever they hold
    more than one title together (one added and one removed included);
    the label naming the added title when the one change is an addition;
    and the label naming the removed title when the one change is a
    removal. *)
Theorem format_issue_title_cases (added removed : list pystr) :
  (format_issue_title added removed = [] ↔ added = [] ∧ removed = [])
  ∧ ((1 < length added + length removed)%nat →
     format_issue_title added removed = u "New signed book - multiple")
  ∧ (∀ a r, added = [a] → removed = [r] →
     format_issue_title added removed = u "New signed book - multiple")
  ∧ (∀ t, added = [t] → removed = [] →
     format_issue_title added removed = u "New signed book - " ++ t)
  ∧ (∀ t, added = [] → removed = [t] →
     format_issue_title added removed = u "Removed signed book - " ++ t).
Proof.
  split_and!.
  - split.
    + unfold format_issue_title.
      destruct added as [|a added], removed as [|r removed]; try done;
        simpl; repeat case_bool_decide; try done; simpl in *; lia.
    + by intros [-> ->].
  - intros Hlen. unfold format_issue_title.
    rewrite bool_decide_eq_false_2 by lia.
    by rewrite bool_decide_eq_true_2 by lia.
  - by intros a r -> ->.
  - by intros t -> ->.
  - by intros t -> ->.
Qed.

(** ** The run *)

(** C6. When the extraction yields no title, the run leaves every file
    as it found it (no snapshot or other file is written, before the
    check or after it), adds the warning to the diagnostic stream and
    ends with the exit code 2. *)
Theorem main_no_titles (T : html_tables) (casefold : pystr → pystr)
    (unicode_tolower : N → N) (unicode_isalnum : N → bool)
    (feed : pystr → list starttag) (float_repr str_repr : pystr → pystr)
    (args : namespace) (timestamp file_timestamp html_text : pystr)
    (w : world) :
  extract_titles T casefold unicode_tolower unicode_isalnum feed html_text
    = [] →
  main T casefold unicode_tolower unicode_isalnum feed float_repr str_repr
    args timestamp file_timestamp html_text w
  = (inr 2%Z,
     {| files := files w;
        stderr := stderr w
          ++ u "No signed titles found; refusing to write empty snapshot."
          ++ [10] |}).
Proof. intros Hnone. unfold main. by rewrite Hnone. Qed.

Lemma main_no_titles_witness :
  main xml_tables ascii_casefold ascii_tolower ascii_isalnum
    (λ _, mistborn_page) id id all_outputs
    (u "2024-01-01T00:00:00Z") (u "2024-01-01T00-00-00Z") []
    {| files := {[ u "data/latest.json" := u "{}" ]}; stderr := [] |}
  = (inr 2%Z,
     {| files := {[ u "data/latest.json" := u "{}" ]};
        stderr :=
          u "No signed titles found; refusing to write empty snapshot."
          ++ [10] |}).
Proof.
  apply (main_no_titles xml_tables ascii_casefold ascii_tolower
           ascii_isalnum (λ _, mistborn_page) id id all_outputs).
  vm_compute. reflexivity.
Defined.

(** ** Markdown escaping *)

Lemma replace_char c after text :
  replace [c] after text
  = concat ((λ x, if c =? x then after else [x]) <$> text).
Proof.
  unfold replace. induction text as [|x text IH]; [done|].
  simpl. rewrite andb_true_r. destruct (c =? x); simpl; by rewrite IH.
Qed.

Lemma concat_fmap_concat (f g : N → pystr) l :
  concat (f <$> concat (g <$> l)) = concat ((λ x, concat (f <$> g x)) <$> l).
Proof.
  induction l as [|x l IH]; [done|].
  by rewrite !fmap_cons, !concat_cons, fmap_app, concat_app, IH.
Qed.

(** The six replacements together put one backslash in front of every
    special character, those of the text and no other. *)
Lemma escape_markdown_chars text :
  escape_markdown text = concat (backslash_prefixed <$> text).
Proof.
  unfold escape_markdown.
  assert (replacements
          = [ ([92], [92; 92]); ([42], [92; 42]); ([95], [92; 95]);
              ([96], [92; 96]); ([91], [92; 91]); ([93], [92; 93]) ])
    as -> by reflexivity.
  cbn [foldl fst snd]. rewrite !replace_char, !concat_fmap_concat.
  f_equal. apply list_fmap_ext. intros _ c _.
  unfold backslash_prefixed, markdown_special.
  destruct (N.eqb_spec 92 c) as [<-|?]; [done|].
  destruct (N.eqb_spec 42 c) as [<-|?]; [done|].
  destruct (N.eqb_spec 95 c) as [<-|?]; [done|].
  destruct (N.eqb_spec 96 c) as [<-|?]; [done|].
  destruct (N.eqb_spec 91 c) as [<-|?]; [done|].
  destruct (N.eqb_spec 93 c) as [<-|?]; [done|].
  rewrite bool_decide_eq_false_2.
  2:{ intros Hs. repeat (apply elem_of_cons in Hs as [->|Hs]; [done|]).
      by apply elem_of_nil in Hs. }
  do 5 (cbn [fmap list_fmap concat app];
        rewrite (proj2 (N.eqb_neq _ c)) by done).
  done.
Qed.

Lemma escape_markdown_app a b :
  escape_markdown (a ++ b) = escape_markdown a ++ escape_markdown b.
Proof. by rewrite !escape_markdown_chars, fmap_app, concat_app. Qed.

Lemma escape_markdown_spaces ws :
  Forall (λ c, isspace c = true) ws → escape_markdown ws = ws.
Proof.
  rewrite escape_markdown_chars.
  induction 1 as [|c ws Hc _ IH]; [done|].
  rewrite fmap_cons, concat_cons, IH.
  unfold backslash_prefixed, markdown_special.
  case_bool_decide as Hs; [|done].
  repeat (apply elem_of_cons in Hs as [->|Hs]; [done|]).
  by apply elem_of_nil in Hs.
Qed.

Lemma rstrip_backslash_prefixed c :
  isspace c = false → rstrip (backslash_prefixed c) = backslash_prefixed c.
Proof.
  intros Hc. unfold backslash_prefixed.
  destruct (markdown_special c).
  - by apply (rstrip_of_snoc_keep isspace [92]).
  - by apply (rstrip_of_snoc_keep isspace []).
Qed.

(** The escaped title, stripped on the right, is in what stripping leaves
    of a line that ends with it. *)
Lemma escaped_in_stripped_line pre t :
  occurs_in (escape_markdown (rstrip t)) (rstrip (pre ++ escape_markdown t)).
Proof.
  destruct (rstrip_of_split isspace t) as (ws & Ht & Hws).
  fold (rstrip t) in Ht. rewrite Ht at 2.
  rewrite escape_markdown_app, (escape_markdown_spaces ws Hws).
  unfold rstrip at 2.
  rewrite app_assoc, (rstrip_of_app_drop _ _ _ (rstrip_of_all _ _ Hws)).
  destruct (rstrip_of_last isspace t) as [Hnil|(r & c & Hr & Hc)].
  - fold (rstrip t) in Hnil. rewrite Hnil. apply occurs_in_nil.
  - fold (rstrip t) in Hr. rewrite Hr, escape_markdown_app.
    rewrite (escape_markdown_chars [c]). simpl. rewrite app_nil_r.
    rewrite app_assoc, rstrip_of_app_keep.
    + rewrite <- app_assoc. apply occurs_in_app_l.
      fold (rstrip (backslash_prefixed c)).
      rewrite rstrip_backslash_prefixed by done. apply occurs_in_refl.
    + fold (rstrip (backslash_prefixed c)).
      rewrite rstrip_backslash_prefixed by done.
      unfold backslash_prefixed. by destruct (markdown_special c).
Qed.

Lemma escaped_in_bold_line pre t :
  occurs_in (escape_markdown (rstrip t))
    (rstrip (pre ++ escape_markdown t ++ u "**")).
Proof.
  unfold rstrip at 2.
  rewrite !app_assoc, (rstrip_of_app_keep isspace _ (u "**")) by done.
  apply occurs_in_app_r, occurs_in_app_l.
  destruct (rstrip_of_split isspace t) as (ws & Ht & Hws).
  fold (rstrip t) in Ht. rewrite Ht at 2. rewrite escape_markdown_app.
  apply occurs_in_app_r, occurs_in_refl.
Qed.

(** ** The issue body *)
Section RendererFacts.
Variable casefold : pystr → pystr.

Lemma current_line_bold added title :
  (∃ a, a ∈ added ∧ casefold a = casefold title) →
  current_line casefold (list_to_set (casefold <$> added)) title
  = u "- **" ++ escape_markdown title ++ u "**".
Proof.
  intros (a & Ha & Heq). unfold current_line.
  rewrite bool_decide_eq_true_2; [done|].
  rewrite elem_of_list_to_set, <- Heq. by apply list_elem_of_fmap_2.
Qed.

Lemma current_line_plain added title :
  ¬ (∃ a, a ∈ added ∧ casefold a = casefold title) →
  current_line casefold (list_to_set (casefold <$> added)) title
  = u "- " ++ escape_markdown title.
Proof.
  intros Hno. unfold current_line.
  rewrite bool_decide_eq_false_2; [done|].
  rewrite elem_of_list_to_set. intros (a & Heq & Ha)%list_elem_of_fmap_1.
  apply Hno. by exists a.
Qed.

Lemma bold_is_not_plain (x : pystr) : u "- **" ++ x ++ u "**" ≠ u "- " ++ x.
Proof.
  intros Heq. apply (f_equal length) in Heq.
  rewrite !length_app in Heq. simpl in Heq. lia.
Qed.

(** The lines of the body end with the heading of the current titles
    and one line for each of them. *)
Lemma issue_lines_current current added removed :
  ∃ sections,
    issue_lines casefold current added removed
    = sections ++ u "Current signed titles:"
        :: (current_line casefold (list_to_set (casefold <$> added))
              <$> current).
Proof.
  unfold issue_lines. eexists. by rewrite <- app_assoc.
Qed.

(** Every title given to the renderer has a line that ends with its
    escaped form, or with that and the closing bold marker. *)
Lemma issue_lines_title current added removed t :
  t ∈ current ∨ t ∈ added ∨ t ∈ removed →
  ∃ pre,
    pre ++ escape_markdown t ∈ issue_lines casefold current added removed
    ∨ pre ++ escape_markdown t ++ u "**"
        ∈ issue_lines casefold current added removed.
Proof.
  unfold issue_lines. intros [Ht|[Ht|Ht]].
  - pose (K := list_to_set (casefold <$> added) : gset pystr).
    assert (current_line casefold K t ∈ current_line casefold K <$> current)
      as Hin by by apply list_elem_of_fmap_2.
    revert Hin. unfold current_line at 1.
    destruct (bool_decide (casefold t ∈ K)); intros Hin.
    + exists (u "- **"). right. rewrite !elem_of_app. by right.
    + exists (u "- "). left. rewrite !elem_of_app. by right.
  - exists (u "- **"). right.
    assert (u "- **" ++ escape_markdown t ++ u "**"
            ∈ (λ title, u "- **" ++ escape_markdown title ++ u "**")
                <$> added) as Hin
      by (apply list_elem_of_fmap; by exists t).
    destruct added as [|a added]; [by apply elem_of_nil in Ht|].
    destruct removed; cbv beta iota zeta; rewrite !elem_of_app; tauto.
  - exists (u "- "). left.
    assert (u "- " ++ escape_markdown t
            ∈ (λ title, u "- " ++ escape_markdown title) <$> removed)
      as Hin by (apply list_elem_of_fmap; by exists t).
    destruct removed as [|r removed]; [by apply elem_of_nil in Ht|].
    destruct added; cbv beta iota zeta; rewrite !elem_of_app; tauto.
Qed.

Lemma format_issue_body_escaped current added removed t :
  t ∈ current ∨ t ∈ added ∨ t ∈ removed →
  occurs_in (escape_markdown (rstrip t))
    (format_issue_body casefold current added removed).
Proof.
  intros Ht. unfold format_issue_body. apply occurs_in_app_r.
  destruct (issue_lines_title current added removed t Ht)
    as (pre & [Hin|Hin]);
    destruct (join_elem_of [10] _ _ Hin) as (a & b & ->);
    (eapply occurs_in_trans; [|apply rstrip_of_occurs]).
  - apply escaped_in_stripped_line.
  - apply escaped_in_bold_line.
Qed.
End RendererFacts.

(** C7. For every text, [escape_markdown] puts a backslash in front of
    each of the characters [\ * _ ` [ ]] of the text and changes nothing
    else: the replacement of the backslash is the first of the list, so a
    backslash of the text is doubled and the backslashes the later
    replacements add are not. Hence every title given to
    [format_issue_body] (without the whitespace at its end, which the body
    may lose) stands in the body with its special characters, [*] and [_]
    among them, each behind a backslash. *)
Theorem escape_markdown_spec (casefold : pystr → pystr) :
  (∀ text, escape_markdown text = concat (backslash_prefixed <$> text))
  ∧ head replacements = Some (u "\", u "\\")
  ∧ (∀ current added removed t,
       t ∈ current ∨ t ∈ added ∨ t ∈ removed →
       occurs_in (concat (backslash_prefixed <$> rstrip t))
         (format_issue_body casefold current added removed))
  ∧ format_issue_body casefold [u "Elantris *signed_copy*"] [] []
    = u "Current signed titles:" ++ [10]
      ++ u "- Elantris \*signed\_copy\*" ++ [10].
Proof.
  split_and!; [apply escape_markdown_chars|done| |done].
  intros current added removed t Ht. rewrite <- escape_markdown_chars.
  by apply format_issue_body_escaped.
Qed.

(** C10. The body ends with the heading of the current titles and one
    line for each current title; that line wraps the escaped title in
    bold markers if and only if the case-folded title is the case-folded
    form of some element of [added], whatever the casing of the two, and
    is the plain escaped title otherwise. *)
Theorem current_title_bold_iff (casefold : pystr → pystr)
    (current added removed : list pystr) :
  let line := current_line casefold (list_to_set (casefold <$> added)) in
  (∃ sections,
     format_issue_body casefold current added removed
     = rstrip (join [10]
         (sections ++ u "Current signed titles:" :: (line <$> current)))
       ++ [10])
  ∧ (∀ title,
       (line title = u "- **" ++ escape_markdown title ++ u "**"
        ↔ ∃ a, a ∈ added ∧ casefold a = casefold title)
       ∧ (line title = u "- " ++ escape_markdown title
          ↔ ¬ ∃ a, a ∈ added ∧ casefold a = casefold title)).
Proof.
  cbv zeta. split.
  - destruct (issue_lines_current casefold current added removed)
      as (sections & Hs).
    exists sections. unfold format_issue_body. by rewrite Hs.
  - intros title.
    assert ((∃ a, a ∈ added ∧ casefold a = casefold title)
            ↔ casefold title ∈ casefold <$> added) as Hkey.
    { rewrite list_elem_of_fmap.
      split; [intros (a & Ha & Heq)|intros (a & Heq & Ha)]; by exists a. }
    destruct (decide (casefold title ∈ casefold <$> added)) as [Hin|Hin];
      [apply Hkey in Hin as Hyes|rewrite <- Hkey in Hin; rename Hin into Hno].
    + rewrite (current_line_bold _ _ _ Hyes). split; [done|].
      split; [|done]. intros Heq. by apply bold_is_not_plain in Heq.
    + rewrite (current_line_plain _ _ _ Hno). split; [|done].
      split; [|done]. intros Heq. symmetry in Heq.
      by apply bold_is_not_plain in Heq.
Qed.

(** ** The search of the keyword *)
Section SearchFacts.
Variable unicode_tolower : N → N.
Variable unicode_isalnum : N → bool.

Lemma match_ignore_spec codes before text lst rest :
  match_ignore unicode_tolower codes before text = Some (lst, rest)
  ↔ ∃ w, text = w ++ rest
         ∧ Forall2 (λ c cs, unicode_tolower c ∈ cs) w codes
         ∧ lst = from_option Some before (last w).
Proof.
  revert before text.
  induction codes as [|cs codes IH]; intros before text; simpl.
  - split.
    + intros [= <- <-]. by exists [].
    + intros (w & -> & ->%Forall2_nil_inv_r & ->). done.
  - destruct text as [|c text].
    + split; [done|]. intros (w & Hw & HF & _).
      apply Forall2_cons_inv_r in HF as (x & w' & _ & _ & ->). done.
    + case_bool_decide as Hc.
      * rewrite IH. split.
        -- intros (w & -> & HF & ->). exists (c :: w).
           split_and!; [done|by constructor|].
           rewrite last_cons. by destruct (last w).
        -- intros (w & Hw & HF & ->).
           apply Forall2_cons_inv_r in HF as (x & w' & _ & HF & ->).
           injection Hw as <- ->. exists w'. split_and!; [done..|].
           rewrite last_cons. by destruct (last w').
      * split; [done|]. intros (w & Hw & HF & _).
        apply Forall2_cons_inv_r in HF as (x & w' & Hx & _ & ->).
        injection Hw as <- _. done.
Qed.

Lemma keyword_nonempty w :
  keyword_ignoring_case unicode_tolower w →
  ∃ c w', w = c :: w' ∧ is_Some (last w).
Proof.
  intros HF. apply Forall2_cons_inv_r in HF as (c & w' & _ & _ & ->).
  exists c, w'. split; [done|]. rewrite last_cons. by destruct (last w').
Qed.

Lemma SIGNED_match_spec before text :
  SIGNED_match unicode_tolower unicode_isalnum before text = true
  ↔ ∃ w post,
      text = w ++ post
      ∧ keyword_ignoring_case unicode_tolower w
      ∧ at_boundary unicode_isalnum before (head w) = true
      ∧ at_boundary unicode_isalnum (last w) (head post) = true.
Proof.
  unfold SIGNED_match. rewrite andb_true_iff. split.
  - intros [Hb Hm].
    destruct (match_ignore _ _ _ _) as [[lst rest]|] eqn:Hmi; [|done].
    apply match_ignore_spec in Hmi as (w & -> & HF & ->).
    destruct (keyword_nonempty w HF) as (c & w' & -> & [l Hl]).
    exists (c :: w'), rest. rewrite Hl in *. by split_and!.
  - intros (w & post & -> & HF & Hb1 & Hb2).
    destruct (keyword_nonempty w HF) as (c & w' & -> & [l Hl]).
    split; [done|].
    destruct (match_ignore _ _ _ _) as [[lst rest]|] eqn:Hmi.
    + apply match_ignore_spec in Hmi as (w2 & Heq & HF2 & ->).
      assert (length w2 = length (c :: w')) as Hlen.
      { by rewrite (Forall2_length _ _ _ HF), (Forall2_length _ _ _ HF2). }
      apply app_inj_1 in Heq as [<- <-]; [|done].
      by rewrite Hl in Hb2 |- *.
    + assert (match_ignore unicode_tolower SIGNED_codes before
                ((c :: w') ++ post)
              = Some (from_option Some before (last (c :: w')), post))
        as Hyes by (apply match_ignore_spec; by exists (c :: w')).
      congruence.
Qed.

Lemma SIGNED_search_from_spec before text :
  SIGNED_search_from unicode_tolower unicode_isalnum before text = true
  ↔ ∃ pre w post,
      text = pre ++ w ++ post
      ∧ keyword_ignoring_case unicode_tolower w
      ∧ at_boundary unicode_isalnum
          (from_option Some before (last pre)) (head w) = true
      ∧ at_boundary unicode_isalnum (last w) (head post) = true.
Proof.
  revert before. induction text as [|c text IH]; intros before.
  - simpl. rewrite orb_false_r, SIGNED_match_spec. split.
    + intros (w & post & Heq & Hrest). by exists [], w, post.
    + intros (pre & w & post & Heq & Hrest).
      destruct pre as [|? ?]; [|done]. by exists w, post.
  - simpl SIGNED_search_from. rewrite orb_true_iff, SIGNED_match_spec, IH.
    split.
    + intros [(w & post & Heq & Hrest)|(pre & w & post & Heq & HF & Hb & Hb')].
      * by exists [], w, post.
      * exists (c :: pre), w, post. rewrite Heq. split_and!; [done..| |done].
        rewrite last_cons. by destruct (last pre).
    + intros (pre & w & post & Heq & HF & Hb & Hb').
      destruct pre as [|c' pre].
      * left. by exists w, post.
      * right. injection Heq as <- ->. exists pre, w, post.
        split_and!; [done..| |done].
        rewrite last_cons in Hb. by destruct (last pre).
Qed.

(** The search succeeds exactly on the texts that hold the keyword as a
    whole word, whatever the case of its letters. *)
Lemma SIGNED_search_spec text :
  SIGNED_search unicode_tolower unicode_isalnum text = true
  ↔ keyword_as_word unicode_tolower unicode_isalnum text.
Proof.
  unfold SIGNED_search, keyword_as_word. rewrite SIGNED_search_from_spec.
  do 3 (apply exist_proper; intros ?).
  by destruct (last _).
Qed.
End SearchFacts.

(** ** Whitespace after the normalizer *)

Lemma WHITESPACE_sub_from_head x :
  starts_with_space (WHITESPACE_sub_from true x) = false.
Proof.
  induction x as [|c x IH]; simpl; [done|].
  destruct (isspace c) eqn:Hc; [done|]. simpl. by rewrite Hc.
Qed.

Lemma WHITESPACE_sub_from_single_spaced b x :
  single_spaced (WHITESPACE_sub_from b x) = true.
Proof.
  revert b. induction x as [|c x IH]; intros b; simpl; [done|].
  destruct (isspace c) eqn:Hc.
  - destruct b; [done|]. simpl.
    by rewrite WHITESPACE_sub_from_head, IH.
  - simpl. by rewrite Hc, IH.
Qed.

Lemma WHITESPACE_sub_from_no_space s :
  starts_with_space s = false →
  WHITESPACE_sub_from true s = WHITESPACE_sub_from false s.
Proof. destruct s as [|c s]; simpl; [done|]. by intros ->. Qed.

Lemma single_spaced_fixed s :
  single_spaced s = true → WHITESPACE_sub s = s.
Proof.
  unfold WHITESPACE_sub. induction s as [|c s IH]; simpl; [done|].
  intros [Hc Hs]%andb_true_iff. destruct (isspace c).
  - apply andb_true_iff in Hc as [->%N.eqb_eq Hh].
    apply negb_true_iff in Hh.
    by rewrite WHITESPACE_sub_from_no_space, IH.
  - by rewrite IH.
Qed.

Lemma single_spaced_app a b :
  single_spaced (a ++ b) = true →
  single_spaced a = true ∧ single_spaced b = true.
Proof.
  induction a as [|c a IH]; simpl; [done|].
  intros [Hc Hs]%andb_true_iff. destruct (IH Hs) as [Ha Hb].
  split; [|done]. rewrite Ha, andb_true_r.
  destruct (isspace c); [|done].
  apply andb_true_iff in Hc as [-> Hh]. simpl.
  destruct a; [done|]. done.
Qed.

Lemma strip_single_spaced s :
  single_spaced s = true → single_spaced (strip s) = true.
Proof.
  intros Hs. unfold strip, rstrip, lstrip.
  destruct (lstrip_of_split isspace s) as (ws1 & H1 & _).
  destruct (rstrip_of_split isspace (lstrip_of isspace s)) as (ws2 & H2 & _).
  rewrite H1 in Hs. apply single_spaced_app in Hs as [_ Hs].
  rewrite H2 in Hs. by apply single_spaced_app in Hs as [Hs _].
Qed.

Lemma rstrip_of_idemp p s : rstrip_of p (rstrip_of p s) = rstrip_of p s.
Proof.
  destruct (rstrip_of_last p s) as [->|(r & c & -> & Hc)]; [done|].
  by apply rstrip_of_snoc_keep.
Qed.

Lemma lstrip_of_no_head p s :
  match s with c :: _ => p c = false | [] => True end → lstrip_of p s = s.
Proof. destruct s as [|c s]; simpl; [done|]. by intros ->. Qed.

Lemma strip_idemp s : strip (strip s) = strip s.
Proof.
  unfold strip, rstrip, lstrip.
  rewrite (lstrip_of_no_head isspace (rstrip_of _ _)).
  - apply rstrip_of_idemp.
  - destruct (rstrip_of_split isspace (lstrip_of isspace s)) as (ws & H2 & _).
    destruct (lstrip_of_head isspace s) as [Hl|(c & r & Hl & Hc)].
    + rewrite Hl. done.
    + destruct (rstrip_of isspace (lstrip_of isspace s)) as [|d y]; [done|].
      rewrite Hl in H2. by injection H2 as -> _.
Qed.

(** A title the normalizer produced is left as it is by the whitespace
    steps. *)
Lemma normalized_whitespace_fixed x :
  let t := strip (WHITESPACE_sub x) in strip (WHITESPACE_sub t) = t.
Proof.
  cbv zeta. rewrite single_spaced_fixed; [apply strip_idemp|].
  apply strip_single_spaced, WHITESPACE_sub_from_single_spaced.
Qed.

(** ** The loop of [extract_titles] *)
Section ExtractFacts.
Variable T : html_tables.
Variable casefold : pystr → pystr.
Variable unicode_tolower : N → N.
Variable unicode_isalnum : N → bool.

Local Abbreviation passes := (passes_filter unicode_tolower unicode_isalnum).
Local Abbreviation step :=
  (extract_step T casefold unicode_tolower unicode_isalnum).
Local Abbreviation kept_of candidates :=
  (filter passes (normalize_title T <$> candidates)).

Lemma extract_step_cases st raw_title :
  let title := normalize_title T raw_title in
  (step st raw_title = ({[casefold title]} ∪ st.1, st.2 ++ [title])
   ∧ passes title ∧ casefold title ∉ st.1)
  ∨ (step st raw_title = st
     ∧ (¬ passes title ∨ casefold title ∈ st.1)).
Proof.
  cbv zeta. unfold extract_step, passes_filter.
  case_bool_decide as Hnil; [right; split; [done|left; by intros []]|].
  destruct (SIGNED_search _ _ _) eqn:Hs; simpl;
    [|right; split; [done|left; by intros []]].
  case_bool_decide as Hseen; [right; by split; [|right]|].
  left. by split_and!.
Qed.

(** After the loop: the set holds the keys of the list; the keys of the
    list are distinct; every title of the list passed the filter and is
    the first of its key among the candidates that passed; every key
    that passed is in the list. *)
Lemma extract_loop_invariant candidates :
  let st := foldl step (∅, []) candidates in
  let kept := kept_of candidates in
  (∀ k, k ∈ st.1 ↔ k ∈ casefold <$> st.2)
  ∧ NoDup (casefold <$> st.2)
  ∧ Forall passes st.2
  ∧ (∀ t, t ∈ st.2 →
       ∃ l1 l2, kept = l1 ++ t :: l2 ∧ casefold t ∉ casefold <$> l1)
  ∧ (∀ c, c ∈ kept → casefold c ∈ casefold <$> st.2).
Proof.
  cbv zeta. induction candidates as [|x l IH] using rev_ind.
  { simpl. split_and!.
    - intros k. split; [by intros ?%elem_of_empty|by intros ?%elem_of_nil].
    - constructor.
    - constructor.
    - intros t Ht. by apply elem_of_nil in Ht.
    - intros c Hc. by apply elem_of_nil in Hc. }
  destruct IH as (Hset & Hnd & Hall & Hfirst & Hkeys).
  rewrite foldl_snoc, fmap_app, filter_app.
  set (st := foldl step (∅, []) l) in *.
  set (kept := kept_of l) in *.
  pose proof (extract_step_cases st x) as Hcases. cbv zeta in Hcases.
  change (normalize_title T <$> [x]) with [normalize_title T x].
  revert Hcases. generalize (normalize_title T x). intros t Hcases.
  destruct Hcases as [(-> & Hp & Hnew)|(-> & Hno)].
  - rewrite filter_cons_True, filter_nil by done. simpl.
    split_and!.
    + intros k. rewrite fmap_app, elem_of_app, elem_of_union, Hset.
      simpl. rewrite elem_of_singleton, list_elem_of_singleton. tauto.
    + rewrite fmap_app. apply NoDup_app. split_and!; [done| |].
      * intros k Hk ->%list_elem_of_singleton. by apply Hnew, Hset.
      * apply NoDup_singleton.
    + apply Forall_app. split; [done|]. by constructor.
    + intros t' [Ht' | ->%list_elem_of_singleton]%elem_of_app.
      * destruct (Hfirst t' Ht') as (l1 & l2 & -> & Hl1).
        exists l1, (l2 ++ [t]). by rewrite <- app_assoc.
      * exists kept, []. split; [done|].
        intros (c & Hc & Hin)%list_elem_of_fmap_1.
        apply Hnew, Hset. rewrite Hc. by apply Hkeys.
    + intros c [Hc| ->%list_elem_of_singleton]%elem_of_app;
        rewrite fmap_app, elem_of_app; [left; by apply Hkeys|right].
      apply list_elem_of_fmap_2, list_elem_of_singleton. done.
  - split_and!; [done..| |].
    + intros t' Ht'. destruct (Hfirst t' Ht') as (l1 & l2 & -> & Hl1).
      exists l1, (l2 ++ filter passes [t]). by rewrite <- app_assoc.
    + intros c [Hc|Hc]%elem_of_app; [by apply Hkeys|].
      destruct Hno as [Hno|Hseen].
      * rewrite filter_cons_False in Hc by done.
        by apply elem_of_nil in Hc.
      * apply list_elem_of_filter in Hc as [_ ->%list_elem_of_singleton].
        by apply Hset.
Qed.

(** The loop on titles that the normalizer leaves alone, that pass the
    filter and whose keys are new and distinct: all are appended. *)
Lemma extract_loop_fixed l seen acc :
  Forall (λ t, normalize_title T t = t ∧ passes t) l →
  NoDup (casefold <$> l) →
  (∀ t, t ∈ l → casefold t ∉ seen) →
  (foldl step (seen, acc) l).2 = acc ++ l.
Proof.
  revert seen acc. induction l as [|t l IH]; intros seen acc Hall Hnd Hnew.
  { simpl. by rewrite app_nil_r. }
  apply Forall_cons in Hall as [[Hfix Hp] Hall].
  rewrite fmap_cons in Hnd. apply NoDup_cons in Hnd as [Hnt Hnd].
  simpl foldl.
  destruct (extract_step_cases (seen, acc) t) as [(-> & _)|(_ & Hno)].
  - rewrite Hfix. simpl. rewrite IH; [by rewrite <- app_assoc|done..|].
    intros t' Ht' [Heq%elem_of_singleton|Hs]%elem_of_union.
    + apply Hnt. rewrite <- Heq. by apply list_elem_of_fmap_2.
    + apply (Hnew t'); [by right|done].
  - rewrite Hfix in Hno. destruct Hno as [Hno|Hseen]; [done|].
    exfalso. apply (Hnew t); [by left|done].
Qed.
End ExtractFacts.

(** Two first occurrences of one key in a list are one occurrence. *)
Lemma first_of_key_unique {A B} (key : A → B) (l1 l2 l1' l2' : list A) c t :
  l1 ++ c :: l2 = l1' ++ t :: l2' →
  key c ∉ key <$> l1 → key t ∉ key <$> l1' → key t = key c → c = t.
Proof.
  revert l1'. induction l1 as [|a l1 IH]; intros [|x l1'] Heq Hc Ht Hk.
  - by injection Heq.
  - injection Heq as -> _. exfalso. apply Ht. rewrite Hk, fmap_cons. by left.
  - injection Heq as -> _. exfalso. apply Hc. rewrite <- Hk, fmap_cons.
    by left.
  - injection Heq as -> Heq. rewrite fmap_cons in Hc, Ht.
    apply (IH l1'); [done| | |done].
    + intros Hin. apply Hc. by right.
    + intros Hin. apply Ht. by right.
Qed.

(** C3. For every markup text, the titles [extract_titles] returns are
    non-empty and hold the keyword as a whole word, whatever the case of
    its letters; their case-folded forms are pairwise distinct, each title
    being, in its own casing, the first of its case-folded form among the
    normalized candidates that pass the filter; the list is sorted by
    case-folded form; and the first-seen candidate of every case-folded
    form is kept: every normalized candidate that passes the filter has
    a title of its case-folded form in the list, and is itself in the
    list when no candidate before it has its case-folded form. *)
Theorem extract_titles_invariant (T : html_tables)
    (casefold : pystr → pystr) (unicode_tolower : N → N)
    (unicode_isalnum : N → bool) (feed : pystr → list starttag)
    (html_text : pystr) :
  let titles :=
    extract_titles T casefold unicode_tolower unicode_isalnum feed
      html_text in
  let kept :=
    filter (passes_filter unicode_tolower unicode_isalnum)
      (normalize_title T <$> parser_titles (feed html_text)) in
  Forall (λ t, t ≠ [] ∧ keyword_as_word unicode_tolower unicode_isalnum t)
    titles
  ∧ NoDup (casefold <$> titles)
  ∧ (∀ t, t ∈ titles →
       ∃ l1 l2, kept = l1 ++ t :: l2 ∧ casefold t ∉ casefold <$> l1)
  ∧ StronglySorted (key_le casefold) titles
  ∧ (∀ c, c ∈ kept → ∃ t, t ∈ titles ∧ casefold t = casefold c)
  ∧ (∀ l1 c l2, kept = l1 ++ c :: l2 → casefold c ∉ casefold <$> l1 →
       c ∈ titles).
Proof.
  cbv zeta. unfold extract_titles, normalizer_filter.
  destruct (extract_loop_invariant T casefold unicode_tolower
              unicode_isalnum (parser_titles (feed html_text)))
    as (_ & Hnd & Hall & Hfirst & Hkeys).
  split_and!.
  - rewrite list_sort_perm. eapply Forall_impl; [exact Hall|].
    intros t [Hne Hs]. split; [done|]. by apply SIGNED_search_spec.
  - by rewrite list_sort_perm.
  - intros t Ht. rewrite list_sort_perm in Ht. by apply Hfirst.
  - apply list_sort_sorted.
  - intros c Hc. apply Hkeys, list_elem_of_fmap in Hc as (t & Ht & Hin).
    exists t. by rewrite list_sort_perm.
  - intros l1 c l2 Hkept Hnew. rewrite list_sort_perm.
    assert (casefold c ∈ casefold <$>
              (foldl (extract_step T casefold unicode_tolower
                        unicode_isalnum) (∅, [])
                 (parser_titles (feed html_text))).2) as Hc.
    { apply Hkeys. rewrite Hkept. set_solver. }
    apply list_elem_of_fmap in Hc as (t & Ht & Hin).
    destruct (Hfirst t Hin) as (l1' & l2' & Hkept' & Hnew').
    rewrite Hkept in Hkept'.
    by rewrite (first_of_key_unique casefold l1 l2 l1' l2' c t).
Qed.

(** ** Running the normalizer on its own output *)

(** A text without [&] is its own decoding. *)
Lemma unescape_no_amp (T : html_tables) (s : pystr) :
  38 ∉ s → unescape T s = s.
Proof. intros Hs. unfold unescape. by rewrite decide_False. Qed.

(** C1, as the code has it. Decoding the character references of a text
    twice is not decoding them once, so the pipeline is idempotent on the
    candidate lists whose output titles the decoding leaves unchanged (as
    it does every title without [&]): for these, running the pipeline on
    its output gives the output again. *)
Theorem normalizer_filter_idempotent (T : html_tables)
    (casefold : pystr → pystr) (unicode_tolower : N → N)
    (unicode_isalnum : N → bool) (candidates : list pystr) :
  let pipeline :=
    normalizer_filter T casefold unicode_tolower unicode_isalnum in
  Forall (λ t, unescape T t = t) (pipeline candidates) →
  pipeline (pipeline candidates) = pipeline candidates.
Proof.
  cbv zeta. unfold normalizer_filter at 1 3 4.
  destruct (extract_loop_invariant T casefold unicode_tolower
              unicode_isalnum candidates)
    as (_ & Hnd & Hall & Hfirst & _).
  set (out := list_sort casefold _). intros Hfix.
  assert (out ≡ₚ (foldl (extract_step T casefold unicode_tolower
                           unicode_isalnum) (∅, []) candidates).2)
    as Hperm by apply list_sort_perm.
  unfold normalizer_filter.
  rewrite (extract_loop_fixed T casefold unicode_tolower unicode_isalnum
             out ∅ []).
  - simpl. apply list_sort_id, list_sort_sorted.
  - apply Forall_forall. intros t Ht. split.
    + rewrite Forall_forall in Hfix. unfold normalize_title.
      rewrite (Hfix t Ht).
      rewrite Hperm in Ht. destruct (Hfirst t Ht) as (l1 & l2 & Hk & _).
      assert (t ∈ normalize_title T <$> candidates) as Hin.
      { assert (t ∈ l1 ++ t :: l2) as Hk'
          by (apply elem_of_app; right; by left).
        rewrite <- Hk in Hk'. by apply list_elem_of_filter in Hk' as [_ ?]. }
      apply list_elem_of_fmap_1 in Hin as (x & -> & _).
      apply normalized_whitespace_fixed.
    + rewrite Forall_forall in Hall. apply Hall. by rewrite <- Hperm.
  - by rewrite Hperm.
  - intros t _. apply not_elem_of_empty.
Qed.

Lemma normalizer_filter_idempotent_witness :
  normalizer_filter xml_tables ascii_casefold ascii_tolower ascii_isalnum
    (normalizer_filter xml_tables ascii_casefold ascii_tolower ascii_isalnum
       [ u "Elantris  (Signed)"; u " ELANTRIS (signed) ";
         u "Elantris &amp; Warbreaker"; u "Mistborn Box Set" ])
  = normalizer_filter xml_tables ascii_casefold ascii_tolower ascii_isalnum
      [ u "Elantris  (Signed)"; u " ELANTRIS (signed) ";
        u "Elantris &amp; Warbreaker"; u "Mistborn Box Set" ].
Proof.
  apply (normalizer_filter_idempotent xml_tables ascii_casefold
           ascii_tolower ascii_isalnum).
  apply (bool_decide_unpack _). vm_compute. exact I.
Defined.

(** C1, as the specification has it, fails: with [&amp;amp;] in a
    candidate the first run leaves [&amp;] and the second run [&]. *)
Lemma normalizer_filter_not_idempotent :
  normalizer_filter xml_tables ascii_casefold ascii_tolower ascii_isalnum
    [u "Elantris &amp;amp; Signed"]
  = [u "Elantris &amp; Signed"]
  ∧ normalizer_filter xml_tables ascii_casefold ascii_tolower ascii_isalnum
      (normalizer_filter xml_tables ascii_casefold ascii_tolower
         ascii_isalnum [u "Elantris &amp;amp; Signed"])
    = [u "Elantris & Signed"]
  ∧ normalizer_filter xml_tables ascii_casefold ascii_tolower ascii_isalnum
      (normalizer_filter xml_tables ascii_casefold ascii_tolower
         ascii_isalnum [u "Elantris &amp;amp; Signed"])
    ≠ normalizer_filter xml_tables ascii_casefold ascii_tolower
        ascii_isalnum [u "Elantris &amp;amp; Signed"].
Proof. split_and!; by vm_compute. Qed.

(** ** Writing a text and reading it back *)

Lemma hexdigit_value d :
  d < 16 → is_hexdigit (hexdigit d) = true ∧ digit_value (hexdigit d) = d.
Proof.
  intros Hd. unfold hexdigit. destruct (N.ltb_spec d 10).
  all: unfold is_hexdigit, digit_value, is_digit; split; compare_cases.
Qed.

Lemma decode_hex4_hex4 n :
  n < 65536 →
  decode_hex4 (hexdigit (n / 4096 mod 16)) (hexdigit (n / 256 mod 16))
    (hexdigit (n / 16 mod 16)) (hexdigit (n mod 16))
  = Some n.
Proof.
  intros Hn. unfold decode_hex4, int_of. simpl.
  destruct (hexdigit_value (n / 4096 mod 16)) as [-> ->];
    [zify; Z.to_euclidean_division_equations; lia|].
  destruct (hexdigit_value (n / 256 mod 16)) as [-> ->];
    [zify; Z.to_euclidean_division_equations; lia|].
  destruct (hexdigit_value (n / 16 mod 16)) as [-> ->];
    [zify; Z.to_euclidean_division_equations; lia|].
  destruct (hexdigit_value (n mod 16)) as [-> ->];
    [zify; Z.to_euclidean_division_equations; lia|].
  simpl. f_equal. zify. Z.to_euclidean_division_equations. lia.
Qed.

Lemma lor_low a b : b < 1024 → N.lor (a * 1024) b = a * 1024 + b.
Proof.
  intros Hb.
  assert (N.land (a * 1024) b = 0) as Hland.
  { change 1024 with (2 ^ 10). rewrite <- N.shiftl_mul_pow2.
    apply N.bits_inj. intros i. rewrite N.land_spec, N.bits_0.
    destruct (N.ltb_spec i 10) as [Hi|Hi].
    - by rewrite N.shiftl_spec_low.
    - rewrite andb_comm.
      assert (N.testbit b i = false) as ->; [|done].
      destruct (N.eq_dec b 0) as [->|Hb0]; [apply N.bits_0|].
      apply N.bits_above_log2, N.log2_lt_pow2; [lia|].
      apply N.lt_le_trans with (2 ^ 10); [done|].
      apply N.pow_le_mono_r; lia. }
  by rewrite N.add_nocarry_lxor, N.lxor_lor.
Qed.

Lemma surrogates_of_eq c :
  surrogates_of c
  = (55296 + (c - 65536) / 1024 mod 1024, 56320 + (c - 65536) mod 1024).
Proof.
  unfold surrogates_of.
  change 1023 with (N.ones 10). rewrite !N.land_ones, N.shiftr_div_pow2.
  change (2 ^ 10) with 1024.
  change 55296 with (54 * 1024) at 1. change 56320 with (55 * 1024) at 1.
  rewrite !lor_low by (apply N.mod_lt; lia). done.
Qed.

Lemma surrogates_of_range c :
  is_high_surrogate (surrogates_of c).1 = true
  ∧ is_low_surrogate (surrogates_of c).2 = true
  ∧ (surrogates_of c).1 < 65536 ∧ (surrogates_of c).2 < 65536.
Proof.
  rewrite surrogates_of_eq. simpl.
  pose proof (N.mod_lt ((c - 65536) / 1024) 1024 ltac:(lia)).
  pose proof (N.mod_lt (c - 65536) 1024 ltac:(lia)).
  set (a := (c - 65536) / 1024 mod 1024) in *.
  set (b := (c - 65536) mod 1024) in *. clearbody a b.
  unfold is_high_surrogate, is_low_surrogate.
  split_and!; compare_cases.
Qed.

Lemma join_surrogates_of c :
  65536 ≤ c → c ≤ 1114111 →
  join_surrogates (surrogates_of c).1 (surrogates_of c).2 = c.
Proof.
  intros Hlo Hhi. rewrite surrogates_of_eq. simpl. unfold join_surrogates.
  rewrite N.shiftl_mul_pow2. change (2 ^ 10) with 1024.
  assert (65536 + ((c - 65536) / 1024 mod 1024 * 1024
                   + (c - 65536) mod 1024) = c) as Hc
    by (zify; Z.to_euclidean_division_equations; lia).
  pose proof (N.mod_lt (c - 65536) 1024 ltac:(lia)) as Hb.
  revert Hc Hb.
  generalize ((c - 65536) / 1024 mod 1024), ((c - 65536) mod 1024).
  intros a b Hc Hb.
  replace (55296 + a - 55296) with a by lia.
  replace (56320 + b - 56320) with b by lia.
  by rewrite lor_low.
Qed.

Lemma scanstring_u_eq h1 h2 h3 h4 r2 :
  scanstring (92 :: 117 :: h1 :: h2 :: h3 :: h4 :: r2)
  = match decode_hex4 h1 h2 h3 h4 with
    | None => None
    | Some uni =>
        let single :=
          match scanstring r2 with
          | Some (t, rest) => Some (uni :: t, rest)
          | None => None
          end in
        if is_high_surrogate uni then
          match r2 with
          | b :: v :: g1 :: g2 :: g3 :: g4 :: r3 =>
              if (b =? 92) && (v =? 117) then
                match decode_hex4 g1 g2 g3 g4 with
                | None => None
                | Some uni2 =>
                    if is_low_surrogate uni2 then
                      match scanstring r3 with
                      | Some (t, rest) =>
                          Some (join_surrogates uni uni2 :: t, rest)
                      | None => None
                      end
                    else single
                end
              else single
          | _ => single
          end
        else single
    end.
Proof. reflexivity. Qed.

(** An escape that is read as one character: what follows it is not the
    escape of a low surrogate, or the character is no high surrogate. *)
Lemma scanstring_u_single h1 h2 h3 h4 uni r2 t rest :
  decode_hex4 h1 h2 h3 h4 = Some uni →
  (is_high_surrogate uni = true →
   ∀ b v g1 g2 g3 g4 r3,
     r2 = b :: v :: g1 :: g2 :: g3 :: g4 :: r3 →
     (b =? 92) && (v =? 117) = true →
     ∃ uni2, decode_hex4 g1 g2 g3 g4 = Some uni2
             ∧ is_low_surrogate uni2 = false) →
  scanstring r2 = Some (t, rest) →
  scanstring (92 :: 117 :: h1 :: h2 :: h3 :: h4 :: r2)
  = Some (uni :: t, rest).
Proof.
  intros Hd Hno Hs. rewrite scanstring_u_eq, Hd. cbv zeta. rewrite Hs.
  destruct (is_high_surrogate uni) eqn:Hh; [|done].
  destruct r2 as [|b [|v [|g1 [|g2 [|g3 [|g4 r3]]]]]]; try done.
  destruct ((b =? 92) && (v =? 117)) eqn:Hbv; [|done].
  destruct (Hno eq_refl _ _ _ _ _ _ _ eq_refl Hbv) as (uni2 & -> & ->).
  done.
Qed.

(** Two escapes that are read as one character. *)
Lemma scanstring_u_pair h1 h2 h3 h4 g1 g2 g3 g4 hi lo r3 t rest :
  decode_hex4 h1 h2 h3 h4 = Some hi → is_high_surrogate hi = true →
  decode_hex4 g1 g2 g3 g4 = Some lo → is_low_surrogate lo = true →
  scanstring r3 = Some (t, rest) →
  scanstring
    (92 :: 117 :: h1 :: h2 :: h3 :: h4
     :: 92 :: 117 :: g1 :: g2 :: g3 :: g4 :: r3)
  = Some (join_surrogates hi lo :: t, rest).
Proof.
  intros Hd Hh Hg Hl Hs. rewrite scanstring_u_eq, Hd. cbv zeta.
  rewrite Hh. change ((92 =? 92) && (117 =? 117)) with true.
  cbv iota. by rewrite Hg, Hl, Hs.
Qed.

Lemma escape_char_u c :
  c < 65536 → (c < 32 ∨ 126 < c) → c ∉ [8; 9; 10; 12; 13] →
  escape_char c
  = [ 92; 117; hexdigit (c / 4096 mod 16); hexdigit (c / 256 mod 16);
      hexdigit (c / 16 mod 16); hexdigit (c mod 16) ].
Proof.
  intros Hc Hr Hs. unfold escape_char.
  assert (c ≠ 8 ∧ c ≠ 9 ∧ c ≠ 10 ∧ c ≠ 12 ∧ c ≠ 13) as (?&?&?&?&?).
  { split_and!; intros ->; apply Hs; repeat constructor. }
  compare_cases.
Qed.

Lemma escape_char_big c :
  65536 ≤ c →
  escape_char c
  = 92 :: 117 :: hex4 (surrogates_of c).1
    ++ 92 :: 117 :: hex4 (surrogates_of c).2.
Proof. intros Hc. unfold escape_char. compare_cases. Qed.

(** A character below [0x10000] that is no high surrogate is read back
    as it was written, whatever follows. *)
Lemma scanstring_escape_char c more t rest :
  c < 65536 → is_high_surrogate c = false →
  scanstring more = Some (t, rest) →
  scanstring (escape_char c ++ more) = Some (c :: t, rest).
Proof.
  intros Hc Hh Hs.
  destruct (decide (c ∈ [34; 92; 10; 13; 9; 12; 8])) as [Hin|Hout].
  { repeat (apply elem_of_cons in Hin as [->|Hin]; [simpl; by rewrite Hs|]).
    by apply elem_of_nil in Hin. }
  assert (c ≠ 34 ∧ c ≠ 92 ∧ c ≠ 10 ∧ c ≠ 13 ∧ c ≠ 9 ∧ c ≠ 12 ∧ c ≠ 8)
    as (?&?&?&?&?&?&?).
  { split_and!; intros ->; apply Hout; repeat constructor. }
  destruct (decide (32 ≤ c ∧ c ≤ 126)) as [[??]|Hr].
  - assert (escape_char c = [c]) as ->
      by (unfold escape_char; compare_cases).
    simpl. rewrite Hs. compare_cases.
  - rewrite escape_char_u; [|done|lia|].
    + cbn [app]. eapply scanstring_u_single; [by apply decode_hex4_hex4| |done].
      by rewrite Hh.
    + intros Hin. repeat (apply elem_of_cons in Hin as [->|Hin]; [done|]).
      by apply elem_of_nil in Hin.
Qed.

Lemma high_is_not_low c : is_high_surrogate c = true → is_low_surrogate c = false.
Proof. unfold is_high_surrogate, is_low_surrogate. compare_cases. Qed.

(** What is written for a character that is no low surrogate does not
    start like the escape of a low surrogate. *)
Lemma escape_char_not_low c more b v g1 g2 g3 g4 r3 :
  is_low_surrogate c = false →
  escape_char c ++ more = b :: v :: g1 :: g2 :: g3 :: g4 :: r3 →
  (b =? 92) && (v =? 117) = true →
  ∃ uni2, decode_hex4 g1 g2 g3 g4 = Some uni2
          ∧ is_low_surrogate uni2 = false.
Proof.
  intros Hl Heq Hbv.
  destruct (decide (c ∈ [34; 92; 10; 13; 9; 12; 8])) as [Hin|Hout].
  { repeat (apply elem_of_cons in Hin as [->|Hin];
            [by injection Heq as <- <- _|]).
    by apply elem_of_nil in Hin. }
  assert (c ≠ 34 ∧ c ≠ 92 ∧ c ≠ 10 ∧ c ≠ 13 ∧ c ≠ 9 ∧ c ≠ 12 ∧ c ≠ 8)
    as (?&?&?&?&?&?&?).
  { split_and!; intros ->; apply Hout; repeat constructor. }
  destruct (decide (32 ≤ c ∧ c ≤ 126)) as [[??]|Hr].
  { assert (escape_char c = [c]) as Hc
      by (unfold escape_char; compare_cases).
    rewrite Hc in Heq. injection Heq as <- _.
    apply andb_true_iff in Hbv as [?%N.eqb_eq _]. done. }
  destruct (decide (c < 65536)) as [Hc|Hc].
  - rewrite escape_char_u in Heq; [|done|lia|].
    + injection Heq as _ _ <- <- <- <- _. exists c.
      by rewrite decode_hex4_hex4.
    + intros Hin. repeat (apply elem_of_cons in Hin as [->|Hin]; [done|]).
      by apply elem_of_nil in Hin.
  - rewrite escape_char_big in Heq by lia.
    destruct (surrogates_of_range c) as (Hh & _ & Hlt & _).
    injection Heq as _ _ <- <- <- <- _. exists (surrogates_of c).1.
    by rewrite decode_hex4_hex4, high_is_not_low.
Qed.

Lemma json_reread_plain c r :
  c < 65536 → is_high_surrogate c = false →
  json_reread (c :: r) = c :: json_reread r.
Proof.
  intros Hc Hh. simpl. rewrite Hh.
  destruct (N.leb_spec 65536 c); [lia|]. by destruct r.
Qed.

(** A written text is read back as [json_reread] says. *)
Lemma scanstring_encoded n s rest :
  (length s ≤ n)%nat →
  scanstring (concat (escape_char <$> s) ++ 34 :: rest)
  = Some (json_reread s, rest).
Proof.
  revert s rest. induction n as [|n IH]; intros [|c r] rest Hlen;
    try done; simpl in Hlen; [lia|].
  rewrite fmap_cons, concat_cons, <- app_assoc.
  assert (scanstring (concat (escape_char <$> r) ++ 34 :: rest)
          = Some (json_reread r, rest)) as Hr by (apply IH; lia).
  destruct (decide (65536 ≤ c)) as [Hbig|Hsmall].
  { rewrite escape_char_big by done.
    destruct (surrogates_of_range c) as (Hh & Hl & Hlt1 & Hlt2).
    unfold hex4. cbn [app].
    erewrite scanstring_u_pair;
      [|by apply decode_hex4_hex4|done|by apply decode_hex4_hex4|done|done].
    simpl. by destruct (N.leb_spec 65536 c); [|lia]. }
  destruct (is_high_surrogate c) eqn:Hh.
  2:{ rewrite json_reread_plain by (done || lia).
      apply scanstring_escape_char; [lia|done..]. }
  assert (55296 ≤ c) as Hge
    by (unfold is_high_surrogate in Hh; revert Hh; compare_cases).
  rewrite escape_char_u; [|lia|lia|].
  2:{ intros Hin. repeat (apply elem_of_cons in Hin as [->|Hin]; [done|]).
      by apply elem_of_nil in Hin. }
  cbn [app]. destruct r as [|lo r'].
  { assert (json_reread [c] = [c]) as ->
      by (simpl; by destruct (N.leb_spec 65536 c); [lia|]).
    change (concat (escape_char <$> []) ++ 34 :: rest) with (34 :: rest).
    eapply scanstring_u_single; [apply decode_hex4_hex4; lia| |done].
    intros _ b v g1 g2 g3 g4 r3 [= <- _] Hbv. done. }
  destruct (is_low_surrogate lo) eqn:Hl.
  - assert (56320 ≤ lo ∧ lo < 65536) as [??]
      by (unfold is_low_surrogate in Hl; revert Hl; compare_cases).
    rewrite fmap_cons, concat_cons, <- app_assoc.
    rewrite (escape_char_u lo); [|lia|lia|].
    2:{ intros Hin. repeat (apply elem_of_cons in Hin as [->|Hin]; [done|]).
        by apply elem_of_nil in Hin. }
    cbn [app].
    erewrite scanstring_u_pair;
      [|apply decode_hex4_hex4; lia|done|apply decode_hex4_hex4; lia|done
       |apply IH; simpl in Hlen; lia].
    simpl. rewrite Hh, Hl. by destruct (N.leb_spec 65536 c); [lia|].
  - assert (json_reread (c :: lo :: r') = c :: json_reread (lo :: r')) as ->.
    { assert ((65536 <=? c) = false) as Hc by (apply N.leb_gt; lia).
      cbn [json_reread]. by rewrite Hc, Hh, Hl. }
    eapply scanstring_u_single; [apply decode_hex4_hex4; lia| |exact Hr].
    intros _ b v g1 g2 g3 g4 r3 Heq Hbv.
    rewrite fmap_cons, concat_cons, <- app_assoc in Heq.
    by eapply escape_char_not_low.
Qed.

Lemma json_reread_id s :
  is_text s → no_surrogate_pair s = true → json_reread s = s.
Proof.
  induction 1 as [|c r Hc Hr IH]; [done|].
  cbn [no_surrogate_pair]. intros [Hp Hnp]%andb_true_iff.
  apply negb_true_iff in Hp. cbn [json_reread].
  destruct (N.leb_spec 65536 c).
  - by rewrite join_surrogates_of, IH.
  - destruct r as [|lo r']; [done|]. rewrite Hp. f_equal. by apply IH.
Qed.

(** ** Reading a written snapshot *)

Lemma skip_ws_keep c x : is_json_ws c = false → skip_ws (c :: x) = c :: x.
Proof. intros Hc. unfold skip_ws. simpl. by rewrite Hc. Qed.

Lemma skip_ws_space x : skip_ws (32 :: x) = skip_ws x.
Proof. done. Qed.

Lemma skip_ws_newline_indent k x :
  skip_ws (10 :: indentation k ++ x) = skip_ws x.
Proof.
  unfold skip_ws, indentation. cbn [lstrip_of].
  change (is_json_ws 10) with true. cbv iota.
  induction (2 * k)%nat as [|m IH]; [done|]. exact IH.
Qed.

Lemma scan_once_string_eq f r :
  scan_once (S f) (34 :: r)
  = match scanstring r with
    | Some (t, rest) => Some (VStr t, rest)
    | None => None
    end.
Proof. done. Qed.

Lemma scan_once_array_eq f r :
  scan_once (S f) (91 :: r)
  = match skip_ws r with
    | c1 :: r1 =>
        if c1 =? 93 then Some (VList [], r1)
        else
          match array_items f (c1 :: r1) with
          | Some (values, rest) => Some (VList values, rest)
          | None => None
          end
    | [] => None
    end.
Proof. done. Qed.

Lemma scan_once_object_eq f r :
  scan_once (S f) (123 :: r)
  = match skip_ws r with
    | c1 :: r1 =>
        if c1 =? 125 then Some (VDict [], r1)
        else
          match object_items f (c1 :: r1) with
          | Some (pairs, rest) => Some (VDict (dict_of_pairs pairs), rest)
          | None => None
          end
    | [] => None
    end.
Proof. done. Qed.

Lemma array_items_eq f s :
  array_items (S f) s
  = match scan_once f s with
    | None => None
    | Some (v, rest) =>
        match skip_ws rest with
        | c :: r =>
            if c =? 93 then Some ([v], r)
            else if c =? 44 then
              match array_items f (skip_ws r) with
              | Some (values, rest') => Some (v :: values, rest')
              | None => None
              end
            else None
        | [] => None
        end
    end.
Proof. done. Qed.

Lemma object_items_eq f r :
  object_items (S f) (34 :: r)
  = match scanstring r with
    | None => None
    | Some (key, rest) =>
        match skip_ws rest with
        | c :: r1 =>
            if c =? 58 then
              match scan_once f (skip_ws r1) with
              | None => None
              | Some (v, rest1) =>
                  match skip_ws rest1 with
                  | c2 :: r2 =>
                      if c2 =? 125 then Some ([(key, v)], r2)
                      else if c2 =? 44 then
                        match object_items f (skip_ws r2) with
                        | Some (pairs, rest2) =>
                            Some ((key, v) :: pairs, rest2)
                        | None => None
                        end
                      else None
                  | [] => None
                  end
              end
            else None
        | [] => None
        end
    end.
Proof. done. Qed.

(** A written text is read as one value. *)
Lemma scan_once_string f s rest :
  scan_once (S f) (encode_basestring_ascii s ++ rest)
  = Some (VStr (json_reread s), rest).
Proof.
  unfold encode_basestring_ascii.
  change ([34] ++ ?x) with (34 :: x). rewrite <- app_comm_cons.
  rewrite scan_once_string_eq, <- app_assoc.
  change ([34] ++ rest) with (34 :: rest).
  by rewrite (scanstring_encoded (length s)).
Qed.

(** The items of a written list of texts, up to the bracket that closes
    it at indentation [k]. *)
Lemma array_items_strings k ts f rest :
  ts ≠ [] → (length ts < f)%nat →
  array_items f
    (join (44 :: 10 :: indentation (S k)) (encode_basestring_ascii <$> ts)
     ++ 10 :: indentation k ++ 93 :: rest)
  = Some (VStr <$> (json_reread <$> ts), rest).
Proof.
  revert f. induction ts as [|t ts IH]; intros f Hne Hlen; [done|].
  destruct f as [|f]; [simpl in Hlen; lia|].
  destruct f as [|f]; [simpl in Hlen; lia|].
  rewrite array_items_eq. destruct ts as [|t' ts].
  - cbn [fmap list_fmap join].
    rewrite scan_once_string, skip_ws_newline_indent, skip_ws_keep by done.
    done.
  - change (join ?sep (?g <$> t :: t' :: ts))
      with (g t ++ sep ++ join sep (g <$> t' :: ts)).
    rewrite <- !app_assoc, scan_once_string.
    rewrite <- app_comm_cons, skip_ws_keep by done.
    change (44 =? 93) with false. change (44 =? 44) with true. cbv iota.
    change ((10 :: ?a) ++ ?b) with (10 :: a ++ b).
    rewrite skip_ws_newline_indent.
    assert (∀ x, skip_ws (join (44 :: 10 :: indentation (S k))
                            (encode_basestring_ascii <$> t' :: ts) ++ x)
                 = join (44 :: 10 :: indentation (S k))
                     (encode_basestring_ascii <$> t' :: ts) ++ x) as ->.
    { intros x. destruct ts; by apply skip_ws_keep. }
    rewrite IH; [done|done|simpl in *; lia].
Qed.

Section SnapshotFacts.
Variable float_repr : pystr → pystr.
Variable str_repr : pystr → pystr.

(** The text written for a list of texts at indentation [k]. *)
Lemma encode_strings k ts :
  encode float_repr k (VList (VStr <$> ts))
  = match ts with
    | [] => u "[]"
    | _ :: _ =>
        91 :: 10 :: indentation (S k)
        ++ join (44 :: 10 :: indentation (S k))
             (encode_basestring_ascii <$> ts)
        ++ 10 :: indentation k ++ [93]
    end.
Proof.
  destruct ts as [|t ts]; [done|].
  rewrite fmap_cons. cbn [encode]. rewrite <- fmap_cons.
  change (u "[") with [91]. change (u "]") with [93].
  rewrite <- list_fmap_compose. done.
Qed.

Lemma scan_once_strings k ts f rest :
  (S (length ts) < f)%nat →
  scan_once f (encode float_repr k (VList (VStr <$> ts)) ++ rest)
  = Some (VList (VStr <$> (json_reread <$> ts)), rest).
Proof.
  intros Hlen. destruct f as [|f]; [lia|]. rewrite encode_strings.
  destruct ts as [|t ts].
  - change (u "[]" ++ rest) with (91 :: 93 :: rest).
    by rewrite scan_once_array_eq, skip_ws_keep.
  - rewrite <- !app_comm_cons, scan_once_array_eq, <- !app_assoc.
    rewrite skip_ws_newline_indent.
    assert (∀ x, skip_ws (join (44 :: 10 :: indentation (S k))
                            (encode_basestring_ascii <$> t :: ts) ++ x)
                 = join (44 :: 10 :: indentation (S k))
                     (encode_basestring_ascii <$> t :: ts) ++ x) as Hskip.
    { intros x. destruct ts; by apply skip_ws_keep. }
    rewrite Hskip.
    pose proof (array_items_strings k (t :: ts) f rest) as Hitems.
    rewrite <- !app_comm_cons, <- !app_assoc in *.
    change ([93] ++ rest) with (93 :: rest).
    destruct (join _ _ ++ _) as [|c1 r1] eqn:Hj.
    { destruct ts; done. }
    assert ((c1 =? 93) = false) as ->.
    { destruct ts; injection Hj as <- _; done. }
    rewrite Hitems; [done|done|simpl in *; lia].
Qed.

(** One [key: value] of a written object, read up to what follows the
    value. *)
Lemma object_items_pair f key venc v tail :
  (∃ c x, venc = c :: x ∧ is_json_ws c = false) →
  scan_once f (venc ++ tail) = Some (v, tail) →
  object_items (S f) (encode_basestring_ascii key ++ u ": " ++ venc ++ tail)
  = match skip_ws tail with
    | c2 :: r2 =>
        if c2 =? 125 then Some ([(json_reread key, v)], r2)
        else if c2 =? 44 then
          match object_items f (skip_ws r2) with
          | Some (pairs, rest2) => Some ((json_reread key, v) :: pairs, rest2)
          | None => None
          end
        else None
    | [] => None
    end.
Proof.
  intros (c & x & -> & Hc) Hv. unfold encode_basestring_ascii.
  change ([34] ++ ?a) with (34 :: a). rewrite <- app_comm_cons.
  rewrite object_items_eq, <- app_assoc.
  change ([34] ++ ?a) with (34 :: a).
  rewrite (scanstring_encoded (length key)) by done.
  change (u ": " ++ ?a) with (58 :: 32 :: a).
  rewrite skip_ws_keep by done. change (58 =? 58) with true. cbv iota.
  rewrite skip_ws_space, <- app_comm_cons, skip_ws_keep by done.
  rewrite app_comm_cons, Hv. done.
Qed.

Lemma encode_snapshot timestamp source_url titles :
  encode float_repr 0 (snapshot timestamp source_url titles)
  = 123 :: 10 :: indentation 1
    ++ (encode_basestring_ascii (u "source_url") ++ u ": "
        ++ encode_basestring_ascii source_url
        ++ 44 :: 10 :: indentation 1
        ++ (encode_basestring_ascii (u "timestamp") ++ u ": "
            ++ encode_basestring_ascii timestamp
            ++ 44 :: 10 :: indentation 1
            ++ (encode_basestring_ascii (u "titles") ++ u ": "
                ++ encode float_repr 1 (VList (VStr <$> titles))
                ++ 10 :: indentation 0 ++ [125]))).
Proof.
  unfold snapshot. cbn [encode fmap list_fmap fst snd].
  change (list_sort fst ?l)
    with [ (u "source_url", encode_basestring_ascii source_url);
           (u "timestamp", encode_basestring_ascii timestamp);
           (u "titles", encode float_repr 1 (VList (VStr <$> titles))) ].
  cbn [fmap list_fmap join fst snd].
  change (u "{") with [123]. change (u "}") with [125].
  by rewrite <- !app_assoc, <- !app_comm_cons.
Qed.

Lemma length_join_strings sep ts :
  (length ts ≤ length (join sep (encode_basestring_ascii <$> ts)))%nat.
Proof.
  induction ts as [|t ts IH]; [done|].
  destruct ts as [|t' ts]; [simpl; lia|].
  change (join sep (?g <$> t :: t' :: ts))
    with (g t ++ sep ++ join sep (g <$> t' :: ts)).
  rewrite !length_app. unfold encode_basestring_ascii at 1.
  rewrite !length_app. simpl in *. lia.
Qed.

Lemma length_encode_strings k ts :
  (length ts ≤ length (encode float_repr k (VList (VStr <$> ts))))%nat.
Proof.
  rewrite encode_strings. destruct ts as [|t ts]; [simpl; lia|].
  pose proof (length_join_strings (44 :: 10 :: indentation (S k)) (t :: ts)).
  rewrite length_cons in H. rewrite !length_cons, !length_app. lia.
Qed.

Lemma skip_ws_string k a :
  skip_ws (encode_basestring_ascii k ++ a) = encode_basestring_ascii k ++ a.
Proof. unfold encode_basestring_ascii. by apply skip_ws_keep. Qed.

Lemma scan_once_object_string f k key a :
  scan_once (S f)
    (123 :: 10 :: indentation k ++ encode_basestring_ascii key ++ a)
  = match object_items f (encode_basestring_ascii key ++ a) with
    | Some (pairs, rest) => Some (VDict (dict_of_pairs pairs), rest)
    | None => None
    end.
Proof.
  rewrite scan_once_object_eq, skip_ws_newline_indent, skip_ws_string.
  done.
Qed.

(** The whitespace between two pairs of a written object. *)
Lemma next_pair k key a :
  skip_ws (44 :: 10 :: indentation k ++ encode_basestring_ascii key ++ a)
  = 44 :: 10 :: indentation k ++ encode_basestring_ascii key ++ a
  ∧ skip_ws (10 :: indentation k ++ encode_basestring_ascii key ++ a)
    = encode_basestring_ascii key ++ a.
Proof.
  split; [by apply skip_ws_keep|].
  by rewrite skip_ws_newline_indent, skip_ws_string.
Qed.

(** The whole snapshot, read as one value. *)
Lemma scan_once_snapshot timestamp source_url titles f rest :
  (S (length titles) < f)%nat →
  scan_once (S (S (S (S f))))
    (encode float_repr 0 (snapshot timestamp source_url titles) ++ rest)
  = Some
      (VDict [ (u "source_url", VStr (json_reread source_url));
               (u "timestamp", VStr (json_reread timestamp));
               (u "titles", VList (VStr <$> (json_reread <$> titles))) ],
       rest).
Proof.
  intros Hf. rewrite encode_snapshot.
  repeat first [rewrite <- !app_assoc | rewrite <- !app_comm_cons].
  change ([] ++ rest) with rest.
  rewrite scan_once_object_string.
  rewrite object_items_pair with (v := VStr (json_reread source_url));
    [|by eexists _, _|apply scan_once_string].
  destruct (next_pair 1 (u "timestamp")
              (u ": " ++ encode_basestring_ascii timestamp
               ++ 44 :: 10 :: indentation 1
               ++ encode_basestring_ascii (u "titles") ++ u ": "
               ++ encode float_repr 1 (VList (VStr <$> titles))
               ++ 10 :: indentation 0 ++ 125 :: rest)) as [-> ->].
  change (44 =? 125) with false. change (44 =? 44) with true. cbv iota.
  rewrite object_items_pair with (v := VStr (json_reread timestamp));
    [|by eexists _, _|apply scan_once_string].
  destruct (next_pair 1 (u "titles")
              (u ": " ++ encode float_repr 1 (VList (VStr <$> titles))
               ++ 10 :: indentation 0 ++ 125 :: rest)) as [-> ->].
  change (44 =? 125) with false. change (44 =? 44) with true. cbv iota.
  rewrite object_items_pair
    with (v := VList (VStr <$> (json_reread <$> titles)));
    [|rewrite encode_strings; destruct titles; by eexists _, _
     |by apply scan_once_strings].
  by rewrite skip_ws_newline_indent.
Qed.

Lemma json_loads_snapshot timestamp source_url titles :
  json_loads
    (encode float_repr 0 (snapshot timestamp source_url titles) ++ [10])
  = Some
      (VDict [ (u "source_url", VStr (json_reread source_url));
               (u "timestamp", VStr (json_reread timestamp));
               (u "titles", VList (VStr <$> (json_reread <$> titles))) ]).
Proof.
  unfold json_loads.
  set (text := encode float_repr 0 (snapshot timestamp source_url titles)).
  assert (∃ x, text = 123 :: x) as [x Hx].
  { unfold text. rewrite encode_snapshot. by eexists. }
  assert (S (length titles) + 5 ≤ 2 * length (text ++ [10%N]) + 2)%nat
    as Hlen.
  { unfold text. rewrite encode_snapshot, length_app.
    pose proof (length_encode_strings 1 titles).
    repeat (rewrite length_cons || rewrite length_app). lia. }
  assert (startswith [65279] (text ++ [10]) = false) as ->
    by by rewrite Hx.
  assert (skip_ws (text ++ [10]) = text ++ [10]) as ->
    by (rewrite Hx; by apply skip_ws_keep).
  destruct (2 * length (text ++ [10%N]) + 2)%nat as [|[|[|[|f]]]] eqn:Hf;
    try lia.
  unfold text. rewrite scan_once_snapshot by lia. done.
Qed.

(** What the loader returns for a snapshot that was just written: the
    titles as they are read back. *)
Lemma load_written_snapshot (path timestamp source_url : pystr)
    (titles : list pystr) (fs : filesystem) :
  load_titles float_repr str_repr path
    (write_json float_repr path (snapshot timestamp source_url titles) fs)
  = inr (json_reread <$> titles).
Proof.
  unfold load_titles, write_json.
  rewrite lookup_insert_eq, json_loads_snapshot.
  change (dict_get (u "titles") _)
    with (Some (VList (VStr <$> (json_reread <$> titles)))).
  cbn [default]. f_equal. rewrite <- list_fmap_compose.
  by rewrite list_fmap_id.
Qed.
End SnapshotFacts.

(** An ASCII literal is a text without surrogates. *)
Lemma ascii_text (s : string) : is_text (u s) ∧ no_surrogate_pair (u s) = true.
Proof.
  unfold u. induction s as [|a s [IH1 IH2]]; [by split; [constructor|]|].
  change ((λ a, N_of_ascii a) <$> String.list_ascii_of_string (String a s))
    with (N_of_ascii a
          :: ((λ a, N_of_ascii a) <$> String.list_ascii_of_string s)).
  revert IH1 IH2.
  generalize ((λ a, N_of_ascii a) <$> String.list_ascii_of_string s).
  intros r IH1 IH2.
  assert (N_of_ascii a < 256) as Ha by apply N_ascii_bounded.
  split.
  - constructor; [lia|done].
  - cbn [no_surrogate_pair]. rewrite IH2, andb_true_r.
    apply negb_true_iff, andb_false_iff. left.
    unfold is_high_surrogate. compare_cases.
Qed.

(** C8, as the code has it. A snapshot written by [write_json] and read
    back from the same path by [load_titles] gives the same titles, in
    the same order and casing, when no title holds a high surrogate
    directly followed by a low surrogate (the writer escapes the two
    apart and the reader joins them into one code point). *)
Theorem snapshot_round_trip (float_repr str_repr : pystr → pystr)
    (path timestamp source_url : pystr) (titles : list pystr)
    (fs : filesystem) :
  Forall (λ t, is_text t ∧ no_surrogate_pair t = true) titles →
  load_titles float_repr str_repr path
    (write_json float_repr path (snapshot timestamp source_url titles) fs)
  = inr titles.
Proof.
  intros Hok. rewrite load_written_snapshot. f_equal.
  induction Hok as [|t ts [Ht Hp] _ IH]; [done|].
  by rewrite fmap_cons, IH, json_reread_id.
Qed.

Lemma snapshot_round_trip_witness :
  load_titles id id (u "data/latest.json")
    (write_json id (u "data/latest.json")
       (snapshot (u "2024-01-01T00:00:00Z") SOURCE_URL
          [ u "Elantris (Signed)"; [201; 108; 97; 110; 128512; 34; 92; 10];
            u "elantris: 10th Anniversary" ])
       ∅)
  = inr [ u "Elantris (Signed)"; [201; 108; 97; 110; 128512; 34; 92; 10];
          u "elantris: 10th Anniversary" ].
Proof.
  apply (snapshot_round_trip id id).
  repeat (apply Forall_cons_2;
          [first [apply ascii_text
                 |split; [repeat (apply Forall_cons_2; [lia|]);
                          apply Forall_nil_2
                         |reflexivity]]|]).
  apply Forall_nil_2.
Defined.

(** C8, as the specification has it, fails: a title made of the two
    surrogates of U+1F600 is read back as the one code point U+1F600. *)
Lemma snapshot_round_trip_fails :
  load_titles id id (u "data/latest.json")
    (write_json id (u "data/latest.json")
       (snapshot (u "2024-01-01T00:00:00Z") SOURCE_URL [[55357; 56832]])
       ∅)
  = inr [[128512]]
  ∧ load_titles id id (u "data/latest.json")
      (write_json id (u "data/latest.json")
         (snapshot (u "2024-01-01T00:00:00Z") SOURCE_URL [[55357; 56832]])
         ∅)
    ≠ inr [[55357; 56832]].
Proof. split; by vm_compute. Qed.

(** ** The loader *)

(** The loader, case by case: no file gives no title; a file that is not
    JSON raises; an object gives the texts of its [titles] list, or no
    title when it has no [titles] or [titles] is no list; any other JSON
    value has no [get] and raises [AttributeError]. *)
Lemma load_titles_cases (float_repr str_repr : pystr → pystr)
    (path : pystr) (fs : filesystem) :
  (fs !! path = None → load_titles float_repr str_repr path fs = inr [])
  ∧ (∀ text, fs !! path = Some text → json_loads text = None →
       load_titles float_repr str_repr path fs = inl JSONDecodeError)
  ∧ (∀ text data titles,
       fs !! path = Some text → json_loads text = Some (VDict data) →
       dict_get (u "titles") data = Some (VList titles) →
       load_titles float_repr str_repr path fs
       = inr (py_str float_repr str_repr <$> titles))
  ∧ (∀ text data,
       fs !! path = Some text → json_loads text = Some (VDict data) →
       (∀ titles, dict_get (u "titles") data ≠ Some (VList titles)) →
       load_titles float_repr str_repr path fs = inr [])
  ∧ (∀ text v,
       fs !! path = Some text → json_loads text = Some v →
       (∀ data, v ≠ VDict data) →
       load_titles float_repr str_repr path fs = inl AttributeError).
Proof.
  unfold load_titles. split_and!.
  - by intros ->.
  - by intros text -> ->.
  - by intros text data titles -> -> ->.
  - intros text data -> -> Hno.
    destruct (dict_get _ data) as [[]|]; try done. by destruct (Hno items).
  - intros text v -> -> Hno. destruct v; try done. by destruct (Hno items).
Qed.

(** C2, where the code departs from it: a file that holds the valid JSON
    text [[]] has no [titles] field, and the loader raises
    [AttributeError] instead of returning no title. *)
Theorem load_titles_top_level_list :
  json_loads (u "[]") = Some (VList [])
  ∧ load_titles id id (u "data/latest.json")
      {[ u "data/latest.json" := u "[]" ]}
    = inl AttributeError.
Proof. split; by vm_compute. Qed.

(** ** The fuel of the reader

    Every value the reader reads takes one character at least, so the
    fuel [json_loads] gives is never what stops the reading: more fuel
    reads the same. *)

Lemma length_skip_ws s : (length (skip_ws s) ≤ length s)%nat.
Proof.
  destruct (lstrip_of_split is_json_ws s) as (ws & Hs & _).
  unfold skip_ws. rewrite Hs at 2. rewrite length_app. lia.
Qed.

Lemma scanstring_shorter n s t rest :
  (length s ≤ n)%nat → scanstring s = Some (t, rest) →
  (length rest < length s)%nat.
Proof.
  revert s t rest. induction n as [|n IH]; intros [|c r] t rest Hlen Hs;
    try done; simpl in Hlen; [lia|].
  assert (∀ x y (res : pystr * pystr),
            (length y ≤ n)%nat →
            match scanstring y with
            | Some (t, rest) => Some (x :: t, rest)
            | None => None
            end = Some res →
            (length res.2 < length y)%nat) as Hone.
  { intros x y res Hy Hm. destruct (scanstring y) as [[t' rest']|] eqn:Hy';
      [|done]. injection Hm as <-. by eapply IH. }
  destruct (N.eqb_spec c 92) as [->|Hc].
  - destruct r as [|e r1]; [done|].
    destruct (N.eqb_spec e 117) as [->|He].
    + destruct r1 as [|h1 [|h2 [|h3 [|h4 r2]]]]; try done.
      rewrite scanstring_u_eq in Hs.
      destruct (decode_hex4 h1 h2 h3 h4) as [uni|]; [|done].
      cbv zeta in Hs. simpl in Hlen.
      assert (∀ res, match scanstring r2 with
                     | Some (t, rest) => Some (uni :: t, rest)
                     | None => None
                     end = Some res → (length res.2 < length r2)%nat)
        as Hsingle by (intros res; apply Hone; lia).
      revert Hs Hsingle.
      generalize (match scanstring r2 with
                  | Some (t, rest) => Some (uni :: t, rest)
                  | None => None
                  end).
      intros single Hs Hsingle.
      assert (single = Some (t, rest) → (length rest < length r2)%nat)
        as Hs' by (intros Heq; by apply Hsingle in Heq).
      destruct (is_high_surrogate uni); [|simpl; apply Hs' in Hs; lia].
      destruct r2 as [|b [|v [|g1 [|g2 [|g3 [|g4 r3]]]]]];
        try (apply Hs' in Hs; simpl in *; lia).
      destruct ((b =? 92) && (v =? 117));
        [|apply Hs' in Hs; simpl in *; lia].
      destruct (decode_hex4 g1 g2 g3 g4) as [uni2|]; [|done].
      destruct (is_low_surrogate uni2);
        [|apply Hs' in Hs; simpl in *; lia].
      apply Hone in Hs; simpl in *; lia.
    + simpl in Hs. rewrite (proj2 (N.eqb_neq e 117)) in Hs by done.
      destruct (backslash e); [|done].
      apply Hone in Hs; simpl in *; lia.
  - simpl in Hs. rewrite (proj2 (N.eqb_neq c 92)) in Hs by done.
    destruct (c =? 34); [injection Hs as <- <-; simpl; lia|].
    destruct (c <? 32); [done|].
    apply Hone in Hs; simpl in *; lia.
Qed.

Lemma match_integer_nonempty s integer :
  match_integer s = Some integer → integer ≠ [] ∧ s ≠ [].
Proof.
  unfold match_integer. intros Hi. destruct s as [|c r]; [done|].
  split; [|done]. repeat case_match; simplify_eq; by destruct r.
Qed.

Lemma match_number_shorter s v rest :
  match_number s = Some (v, rest) → (length rest < length s)%nat.
Proof.
  unfold match_number. destruct (match_integer s) as [integer|] eqn:Hi;
    [|done].
  apply match_integer_nonempty in Hi as [Hi Hs]. intros Hm.
  assert (length rest
          ≤ length (drop (length integer) s))%nat as Hle
    by (case_match; simplify_eq; rewrite !length_drop; lia).
  rewrite length_drop in Hle.
  destruct integer; [done|]. destruct s; [done|]. simpl in *. lia.
Qed.

Lemma constant_shorter name v s res :
  name ≠ [] → constant name v s = Some res →
  (length res.2 < length s)%nat.
Proof.
  unfold constant. intros Hn Hc. case_match; simplify_eq. simpl.
  rewrite length_drop. destruct name; [done|]. destruct s; [done|].
  simpl. lia.
Qed.

Lemma scan_scalar_shorter s v rest :
  scan_scalar s = Some (v, rest) → (length rest < length s)%nat.
Proof.
  unfold scan_scalar. intros Hs.
  repeat case_match; simplify_eq;
    first [ by eapply match_number_shorter
          | match goal with
            | H : constant ?name _ _ = Some (_, ?r) |- _ =>
                by apply (constant_shorter name) in H
            end ].
Qed.

Lemma scan_once_eq f c r :
  scan_once (S f) (c :: r)
  = if c =? 34 then
      match scanstring r with
      | Some (t, rest) => Some (VStr t, rest)
      | None => None
      end
    else if c =? 123 then
      match skip_ws r with
      | c1 :: r1 =>
          if c1 =? 125 then Some (VDict [], r1)
          else
            match object_items f (c1 :: r1) with
            | Some (pairs, rest) => Some (VDict (dict_of_pairs pairs), rest)
            | None => None
            end
      | [] => None
      end
    else if c =? 91 then
      match skip_ws r with
      | c1 :: r1 =>
          if c1 =? 93 then Some (VList [], r1)
          else
            match array_items f (c1 :: r1) with
            | Some (values, rest) => Some (VList values, rest)
            | None => None
            end
      | [] => None
      end
    else scan_scalar (c :: r).
Proof. done. Qed.

Lemma object_items_head f s res :
  object_items f s = Some res → ∃ r, s = 34 :: r.
Proof.
  destruct f as [|f]; [done|]. destruct s as [|q r]; [done|]. simpl.
  destruct (N.eqb_spec q 34) as [->|]; [by eexists|done].
Qed.

(** What is read is taken from the text. *)
Lemma reader_consumes f :
  (∀ s v rest, scan_once f s = Some (v, rest) →
     (length rest < length s)%nat)
  ∧ (∀ s vs rest, array_items f s = Some (vs, rest) →
       (length rest < length s)%nat)
  ∧ (∀ s ps rest, object_items f s = Some (ps, rest) →
       (length rest < length s)%nat).
Proof.
  induction f as [|f (IHs & IHa & IHo)]; [done|]. split_and!.
  - intros [|c r] v rest Hs; [done|]. rewrite scan_once_eq in Hs.
    pose proof (length_skip_ws r) as Hws.
    destruct (c =? 34).
    { destruct (scanstring r) as [[t rest']|] eqn:E; [|done].
      apply (scanstring_shorter (length r)) in E; [|done].
      simplify_eq. simpl. lia. }
    destruct (c =? 123).
    { destruct (skip_ws r) as [|c1 r1]; [done|].
      destruct (c1 =? 125); [simplify_eq; simpl in *; lia|].
      destruct (object_items f (c1 :: r1)) as [[ps rest']|] eqn:E; [|done].
      apply IHo in E. simplify_eq. simpl in *. lia. }
    destruct (c =? 91).
    { destruct (skip_ws r) as [|c1 r1]; [done|].
      destruct (c1 =? 93); [simplify_eq; simpl in *; lia|].
      destruct (array_items f (c1 :: r1)) as [[vs rest']|] eqn:E; [|done].
      apply IHa in E. simplify_eq. simpl in *. lia. }
    by apply scan_scalar_shorter in Hs.
  - intros s vs rest Ha. rewrite array_items_eq in Ha.
    destruct (scan_once f s) as [[v r0]|] eqn:E; [|done]. apply IHs in E.
    pose proof (length_skip_ws r0) as Hws.
    destruct (skip_ws r0) as [|c r]; [done|].
    destruct (c =? 93); [simplify_eq; simpl in *; lia|].
    destruct (c =? 44); [|done].
    pose proof (length_skip_ws r) as Hws'.
    destruct (array_items f (skip_ws r)) as [[vs' rest']|] eqn:E'; [|done].
    apply IHa in E'. simplify_eq. simpl in *. lia.
  - intros s ps rest Ho.
    destruct (object_items_head _ _ _ Ho) as [r ->].
    rewrite object_items_eq in Ho.
    destruct (scanstring r) as [[key r0]|] eqn:E; [|done].
    apply (scanstring_shorter (length r)) in E; [|done].
    pose proof (length_skip_ws r0) as Hws.
    destruct (skip_ws r0) as [|c r1]; [done|].
    destruct (c =? 58); [|done].
    pose proof (length_skip_ws r1) as Hws1.
    destruct (scan_once f (skip_ws r1)) as [[v r2]|] eqn:E1; [|done].
    apply IHs in E1. pose proof (length_skip_ws r2) as Hws2.
    destruct (skip_ws r2) as [|c2 r3]; [done|].
    destruct (c2 =? 125); [simplify_eq; simpl in *; lia|].
    destruct (c2 =? 44); [|done].
    pose proof (length_skip_ws r3) as Hws3.
    destruct (object_items f (skip_ws r3)) as [[ps' rest']|] eqn:E3; [|done].
    apply IHo in E3. simplify_eq. simpl in *. lia.
Qed.

(** With fuel past twice the length of the text, the fuel does not
    matter. *)
Lemma reader_fuel f1 :
  (∀ f2 s, (2 * length s < f1)%nat → (2 * length s < f2)%nat →
     scan_once f1 s = scan_once f2 s)
  ∧ (∀ f2 s, (2 * length s + 1 < f1)%nat → (2 * length s + 1 < f2)%nat →
       array_items f1 s = array_items f2 s)
  ∧ (∀ f2 s, (2 * length s + 1 < f1)%nat → (2 * length s + 1 < f2)%nat →
       object_items f1 s = object_items f2 s).
Proof.
  induction f1 as [|f1 (IHs & IHa & IHo)]; [split_and!; intros; lia|].
  split_and!.
  - intros [|f2] [|c r] H1 H2; try done; try lia.
    rewrite !scan_once_eq. pose proof (length_skip_ws r) as Hws.
    destruct (c =? 34); [done|].
    destruct (c =? 123).
    { destruct (skip_ws r) as [|c1 r1]; [done|].
      destruct (c1 =? 125); [done|].
      rewrite (IHo f2); [done|simpl in *; lia..]. }
    destruct (c =? 91); [|done].
    destruct (skip_ws r) as [|c1 r1]; [done|].
    destruct (c1 =? 93); [done|].
    rewrite (IHa f2); [done|simpl in *; lia..].
  - intros [|f2] s H1 H2; [lia|]. rewrite !array_items_eq.
    rewrite (IHs f2 s) by lia.
    destruct (scan_once f2 s) as [[v r0]|] eqn:E; [|done].
    apply reader_consumes in E. pose proof (length_skip_ws r0) as Hws.
    destruct (skip_ws r0) as [|c r]; [done|].
    destruct (c =? 93); [done|]. destruct (c =? 44); [|done].
    pose proof (length_skip_ws r) as Hws'.
    rewrite (IHa f2 (skip_ws r)); [done|simpl in *; lia..].
  - intros [|f2] [|q r] H1 H2; try done; try lia.
    destruct (N.eqb_spec q 34) as [->|Hq].
    2:{ simpl. by rewrite (proj2 (N.eqb_neq q 34)). }
    rewrite !object_items_eq.
    destruct (scanstring r) as [[key r0]|] eqn:E; [|done].
    apply (scanstring_shorter (length r)) in E; [|done].
    pose proof (length_skip_ws r0) as Hws.
    destruct (skip_ws r0) as [|c r1]; [done|].
    destruct (c =? 58); [|done].
    pose proof (length_skip_ws r1) as Hws1.
    rewrite (IHs f2 (skip_ws r1)) by (simpl in *; lia).
    destruct (scan_once f2 (skip_ws r1)) as [[v r2]|] eqn:E1; [|done].
    apply reader_consumes in E1. pose proof (length_skip_ws r2) as Hws2.
    destruct (skip_ws r2) as [|c2 r3]; [done|].
    destruct (c2 =? 125); [done|]. destruct (c2 =? 44); [|done].
    pose proof (length_skip_ws r3) as Hws3.
    rewrite (IHo f2 (skip_ws r3)); [done|simpl in *; lia..].
Qed.

(** [json_loads] reads with enough fuel: any more reads the same. *)
Lemma json_loads_fuel s f :
  (2 * length s + 2 ≤ f)%nat →
  scan_once f (skip_ws s) = scan_once (2 * length s + 2) (skip_ws s).
Proof.
  intros Hf. pose proof (length_skip_ws s).
  apply reader_fuel; lia.
Qed.

(** * The rest of the pipeline *)

(** ** The tag handler *)

(** The handler adds to the titles it was given; it never looks at
    them. *)
Lemma handle_starttag_acc titles tag a :
  handle_starttag titles tag a = titles ++ handle_starttag [] tag a.
Proof.
  unfold handle_starttag. repeat case_match; by rewrite ?app_nil_r.
Qed.

Lemma parser_titles_cons t tags :
  parser_titles (t :: tags) = handle_starttag [] t.1 t.2 ++ parser_titles tags.
Proof.
  unfold parser_titles. simpl.
  generalize (handle_starttag [] t.1 t.2) as acc.
  induction tags as [|t' tags IH]; intros acc; simpl.
  - by rewrite app_nil_r.
  - rewrite IH, (IH (handle_starttag [] _ _)), handle_starttag_acc.
    by rewrite app_assoc.
Qed.

(** [dict(attrs)] gives every attribute the value of its last
    occurrence. *)
Lemma dict_lookup (a : attrs) (k : pystr) : dict a !! k = attr_value a k.
Proof.
  unfold dict, attr_value, attrs in *.
  induction a as [|[k' v] a IH] using rev_ind; [done|].
  rewrite foldl_snoc, filter_app. simpl.
  destruct (decide (k' = k)) as [->|Hne].
  - rewrite lookup_insert_eq, filter_cons_True by done.
    by rewrite filter_nil, last_snoc.
  - rewrite lookup_insert_ne, filter_cons_False by done.
    by rewrite filter_nil, app_nil_r.
Qed.

Lemma handle_starttag_elem t tag a :
  t ∈ handle_starttag [] tag a
  ↔ tag = u "a" ∧ t ≠ []
    ∧ attr_value a (u "title") = Some (Some t)
    ∧ ∃ href, attr_value a (u "href") = Some (Some href)
              ∧ startswith (u "/products/") href = true.
Proof.
  unfold handle_starttag. rewrite <- !dict_lookup.
  case_bool_decide as Htag.
  { split; [by intros ?%elem_of_nil|]. by intros [? _]. }
  destruct (dict a !! u "title") as [[[|c title]|]|] eqn:Ht;
    cbn [default from_option id truthy negb orb].
  1,3,4: split; [by intros ?%elem_of_nil|];
         by intros (_ & ? & ? & _); simplify_eq.
  destruct (dict a !! u "href") as [[[|d href]|]|] eqn:Hh;
    cbn [default from_option id truthy negb orb app].
  1,3: split; [by intros ?%elem_of_nil|];
       by intros (_ & _ & _ & ? & ? & ?); simplify_eq.
  - destruct (startswith (u "/products/") (d :: href)) eqn:Hs.
    + rewrite list_elem_of_singleton. split.
      * intros ->. split_and!; try done. by eexists.
      * intros (_ & _ & ? & _). by simplify_eq.
    + split; [by intros ?%elem_of_nil|].
      intros (_ & _ & _ & ? & ? & ?). simplify_eq. congruence.
  - split; [by intros ?%elem_of_nil|].
    by intros (_ & _ & _ & ? & ? & ?); simplify_eq.
Qed.

(** X1. The titles the parser collects are exactly the non-empty values
    of the [title] attribute of the [a] start tags whose [href] has a
    value that begins with [/products/]; an attribute written more than
    once counts with its last value, and one without a value does not
    count. *)
Theorem parser_titles_spec (tags : list starttag) (t : pystr) :
  t ∈ parser_titles tags
  ↔ t ≠ []
    ∧ ∃ a href,
        (u "a", a) ∈ tags
        ∧ attr_value a (u "title") = Some (Some t)
        ∧ attr_value a (u "href") = Some (Some href)
        ∧ startswith (u "/products/") href = true.
Proof.
  induction tags as [|[tag a] tags IH].
  - split; [by intros ?%elem_of_nil|].
    by intros (_ & ? & ? & ?%elem_of_nil & _).
  - rewrite parser_titles_cons, elem_of_app, IH, handle_starttag_elem. simpl.
    split.
    + intros [(-> & Hne & Ht & href & Hh & Hs)
             |(Hne & a' & href & Hin & Hrest)].
      * split; [done|]. exists a, href.
        split; [apply list_elem_of_here|done].
      * split; [done|]. exists a', href.
        split; [by apply list_elem_of_further|done].
    + intros (Hne & a' & href & Hin & Ht & Hh & Hs).
      apply elem_of_cons in Hin as [Heq|Hin].
      * left. simplify_eq. split_and!; try done. by exists href.
      * right. split; [done|]. by exists a', href.
Qed.

(** X2. The parser collects the titles in the order of the start tags,
    each tag on its own: the titles of two runs of tags, one after the
    other, are the titles of the first run followed by those of the
    second. *)
Theorem parser_titles_app (tags1 tags2 : list starttag) :
  parser_titles (tags1 ++ tags2) = parser_titles tags1 ++ parser_titles tags2.
Proof.
  induction tags1 as [|t tags1 IH]; [done|].
  by rewrite <- app_comm_cons, !parser_titles_cons, IH, app_assoc.
Qed.

(** ** The whitespace of a normalized title *)

Lemma lstrip_strip s : lstrip (strip s) = strip s.
Proof.
  unfold strip, rstrip, lstrip.
  apply lstrip_of_no_head.
  destruct (rstrip_of_split isspace (lstrip_of isspace s)) as (ws & H2 & _).
  destruct (lstrip_of_head isspace s) as [Hl|(c & r & Hl & Hc)].
  - by rewrite Hl.
  - destruct (rstrip_of isspace (lstrip_of isspace s)) as [|d y]; [done|].
    rewrite Hl in H2. by injection H2 as -> _.
Qed.

Lemma single_spaced_spaces s :
  single_spaced s = true → Forall (λ c, isspace c = true → c = 32) s.
Proof.
  induction s as [|c s IH]; simpl; [constructor|].
  intros [Hc Hs]%andb_true_iff. constructor; [|by apply IH].
  intros Hsp. rewrite Hsp in Hc.
  by apply andb_true_iff in Hc as [->%N.eqb_eq _].
Qed.

Lemma single_spaced_no_double s :
  single_spaced s = true → ¬ occurs_in [32; 32] s.
Proof.
  intros Hs (pre & post & ->).
  apply single_spaced_app in Hs as [_ Hs]. simpl in Hs. done.
Qed.

Lemma WHITESPACE_sub_from_blank b s :
  Forall (λ c, isspace c = true) s →
  Forall (λ c, isspace c = true) (WHITESPACE_sub_from b s).
Proof.
  intros Hs. revert b. induction Hs as [|c s Hc _ IH]; intros b; simpl.
  - constructor.
  - rewrite Hc. destruct b; [apply IH|]. constructor; [done|apply IH].
Qed.

(** X3. A normalized title neither begins nor ends with whitespace, its
    only whitespace characters are spaces (U+0020), and no two of them
    stand side by side. *)
Theorem normalize_title_whitespace (T : html_tables) (title : pystr) :
  let t := normalize_title T title in
  lstrip t = t ∧ rstrip t = t
  ∧ Forall (λ c, isspace c = true → c = 32) t
  ∧ ¬ occurs_in [32; 32] t.
Proof.
  cbv zeta. unfold normalize_title.
  assert (single_spaced (strip (WHITESPACE_sub (unescape T title))) = true)
    as Hs by apply strip_single_spaced, WHITESPACE_sub_from_single_spaced.
  split_and!.
  - apply lstrip_strip.
  - apply rstrip_of_idemp.
  - by apply single_spaced_spaces.
  - by apply single_spaced_no_double.
Qed.

(** X4. A candidate made of whitespace only is normalized to the empty
    text, which [extract_titles] skips. *)
Theorem normalize_title_blank (T : html_tables) (title : pystr) :
  Forall (λ c, isspace c = true) title → normalize_title T title = [].
Proof.
  intros Hs. unfold normalize_title.
  rewrite unescape_no_amp.
  - unfold strip, lstrip.
    by rewrite lstrip_of_all by by apply WHITESPACE_sub_from_blank.
  - intros Hin. by eapply Forall_forall in Hin; [|exact Hs].
Qed.

Lemma normalize_title_blank_witness :
  normalize_title xml_tables [32; 9; 10; 160; 8195] = [].
Proof. apply normalize_title_blank. repeat constructor. Defined.

(** ** What the extractor keeps *)

(** X5. [extract_titles] loses no title but the repeats: every
    normalized candidate that passes the filter has a title of the same
    case-folded form in the result; the result is empty exactly when no
    normalized candidate passes the filter; and it is no longer than the
    list of those that pass. *)
Theorem extract_titles_complete (T : html_tables)
    (casefold : pystr → pystr) (unicode_tolower : N → N)
    (unicode_isalnum : N → bool) (feed : pystr → list starttag)
    (html_text : pystr) :
  let titles :=
    extract_titles T casefold unicode_tolower unicode_isalnum feed
      html_text in
  let kept :=
    filter (passes_filter unicode_tolower unicode_isalnum)
      (normalize_title T <$> parser_titles (feed html_text)) in
  (∀ c, c ∈ kept → ∃ t, t ∈ titles ∧ casefold t = casefold c)
  ∧ (titles = [] ↔ kept = [])
  ∧ (length titles ≤ length kept)%nat.
Proof.
  cbv zeta. unfold extract_titles, normalizer_filter.
  destruct (extract_loop_invariant T casefold unicode_tolower
              unicode_isalnum (parser_titles (feed html_text)))
    as (_ & Hnd & _ & Hfirst & Hkeys).
  set (st := foldl _ _ _) in *. set (kept := filter _ _) in *.
  assert (∀ c, c ∈ kept →
    ∃ t, t ∈ list_sort casefold st.2 ∧ casefold t = casefold c) as Hall.
  { intros c Hc. apply Hkeys, list_elem_of_fmap in Hc as (t & Ht & Hin).
    exists t. by rewrite list_sort_perm. }
  assert (st.2 ⊆ kept) as Hsub.
  { intros t Ht. destruct (Hfirst t Ht) as (l1 & l2 & -> & _). set_solver. }
  split_and!.
  - done.
  - split.
    + intros Hnil. destruct kept as [|c kept']; [done|].
      destruct (Hall c) as (t & Ht & _); [left|].
      rewrite Hnil in Ht. by apply elem_of_nil in Ht.
    + intros Hnil. rewrite Hnil in Hsub.
      apply Permutation_nil_r. rewrite list_sort_perm.
      destruct st.2 as [|t ts]; [done|]. specialize (Hsub t). set_solver.
  - rewrite list_sort_perm.
    apply NoDup_fmap_1 in Hnd.
    by apply submseteq_length, NoDup_submseteq.
Qed.

(** ** More on the differ *)

Lemma list_filter_bool {A} (P : A → Prop) `{∀ x, Decision (P x)}
    (l : list A) :
  List.filter (λ x, bool_decide (P x)) l = filter P l.
Proof.
  induction l as [|x l IH]; [done|]. cbn [List.filter]. rewrite IH.
  case_bool_decide.
  - by rewrite filter_cons_True.
  - by rewrite filter_cons_False.
Qed.

Lemma StronglySorted_filter {A} (R : relation A) (P : A → Prop)
    `{∀ x, Decision (P x)} (l : list A) :
  StronglySorted R l → StronglySorted R (filter P l).
Proof.
  induction 1 as [|x l Hl IH Hx]; [constructor|].
  destruct (decide (P x)).
  - rewrite filter_cons_True by done. constructor; [done|].
    apply Forall_forall. intros y [_ Hy]%list_elem_of_filter.
    by eapply Forall_forall in Hx.
  - by rewrite filter_cons_False.
Qed.

Section DifferMore.
Variable casefold : pystr → pystr.

Lemma list_sort_nil (l : list pystr) : list_sort casefold l = [] ↔ l = [].
Proof.
  split; [|by intros ->].
  intros Hnil. apply Permutation_nil_r. by rewrite <- Hnil, list_sort_perm.
Qed.

Lemma filter_keys_nil (l k : list pystr) :
  filter (λ t, casefold t ∉ casefold <$> k) l = []
  ↔ ∀ x, x ∈ casefold <$> l → x ∈ casefold <$> k.
Proof.
  split.
  - intros Hnil x (t & -> & Ht)%list_elem_of_fmap.
    destruct (decide (casefold t ∈ casefold <$> k)) as [|Hno]; [done|].
    assert (t ∈ filter (λ t, casefold t ∉ casefold <$> k) l) as Hin
      by by apply list_elem_of_filter.
    rewrite Hnil in Hin. by apply elem_of_nil in Hin.
  - intros Hall. induction l as [|t l IH]; [done|].
    rewrite filter_cons_False.
    + apply IH. intros x Hx. apply Hall. rewrite fmap_cons. by right.
    + intros Hno. apply Hno, Hall. rewrite fmap_cons. by left.
Qed.

Lemma diff_titles_nil previous current :
  diff_titles casefold previous current = ([], [])
  ↔ ∀ k, k ∈ casefold <$> previous ↔ k ∈ casefold <$> current.
Proof.
  rewrite (surjective_pairing (diff_titles casefold previous current)).
  rewrite diff_titles_fst, diff_titles_snd.
  split.
  - intros [= Ha Hr].
    apply (proj1 (list_sort_nil _)) in Ha, Hr.
    intros k. split.
    + by apply (proj1 (filter_keys_nil previous current) Hr).
    + by apply (proj1 (filter_keys_nil current previous) Ha).
  - intros Hk.
    f_equal; apply list_sort_nil, filter_keys_nil; intros k; apply Hk.
Qed.

Lemma format_issue_title_nil added removed :
  format_issue_title added removed = [] ↔ added = [] ∧ removed = [].
Proof.
  unfold format_issue_title.
  destruct added as [|a added], removed as [|r removed]; simpl.
  - done.
  - destruct removed; simpl; split; (done || by intros []).
  - destruct added; simpl; split; (done || by intros []).
  - case_bool_decide; [|lia]. split; (done || by intros []).
Qed.

(** Against no earlier title, a sorted list is added as it stands. *)
Lemma diff_titles_first (titles : list pystr) :
  StronglySorted (key_le casefold) titles →
  diff_titles casefold [] titles = (titles, []).
Proof.
  intros Hsorted.
  rewrite (surjective_pairing (diff_titles casefold [] titles)).
  rewrite diff_titles_fst, diff_titles_snd. f_equal.
  assert (filter (λ t, casefold t ∉ casefold <$> []) titles = titles)
    as ->; [|by apply list_sort_id].
  clear. induction titles as [|t l IH]; [done|].
  rewrite filter_cons_True, IH; [done|]. by intros ?%elem_of_nil.
Qed.

Lemma filter_key_new (k : pystr) (others l : list pystr) :
  filter (λ t, casefold t = k)
    (filter (λ t, casefold t ∉ casefold <$> others) l)
  = if bool_decide (k ∈ casefold <$> others) then []
    else filter (λ t, casefold t = k) l.
Proof.
  induction l as [|t l IH]; [by case_bool_decide|].
  destruct (decide (casefold t = k)) as [Hk|Hk].
  - rewrite (filter_cons_True (λ t, casefold t = k) t l) by done.
    destruct (decide (casefold t ∈ casefold <$> others)) as [Hin|Hin].
    + rewrite filter_cons_False by auto. rewrite IH.
      rewrite bool_decide_eq_true_2; [done|by rewrite <- Hk].
    + rewrite filter_cons_True by done.
      rewrite filter_cons_True by done. rewrite IH.
      rewrite bool_decide_eq_false_2; [done|by rewrite <- Hk].
  - rewrite (filter_cons_False (λ t, casefold t = k) t l) by done.
    destruct (decide (casefold t ∈ casefold <$> others)) as [Hin|Hin].
    + by rewrite filter_cons_False by auto.
    + rewrite filter_cons_True by done. by rewrite filter_cons_False by done.
Qed.
End DifferMore.

(** X6. No title is reported both ways: every added title is a current
    title whose case-folded form is that of no previous title, every
    removed title is a previous title whose case-folded form is that of
    no current title, and no added title has the case-folded form of a
    removed one. *)
Theorem diff_titles_disjoint (casefold : pystr → pystr)
    (previous current : list pystr) :
  let d := diff_titles casefold previous current in
  Forall (λ a, a ∈ current ∧ (casefold a ∉ casefold <$> previous)
               ∧ Forall (λ r, casefold a ≠ casefold r) d.2) d.1
  ∧ Forall (λ r, r ∈ previous ∧ casefold r ∉ casefold <$> current) d.2.
Proof.
  cbv zeta. rewrite diff_titles_fst, diff_titles_snd.
  assert (Forall (λ r, r ∈ previous ∧ casefold r ∉ casefold <$> current)
            (list_sort casefold
               (filter (λ t, casefold t ∉ casefold <$> current) previous)))
    as Hr.
  { apply Forall_forall. intros r Hin. rewrite list_sort_perm in Hin.
    by apply list_elem_of_filter in Hin as [? ?]. }
  split; [|done].
  apply Forall_forall. intros a Hin. rewrite list_sort_perm in Hin.
  apply list_elem_of_filter in Hin as [Hnew Hin]. split_and!; try done.
  eapply Forall_impl; [exact Hr|]. intros r [Hp _] Heq.
  apply Hnew. rewrite Heq. by apply list_elem_of_fmap_2.
Qed.

(** X7. [diff_titles] reports no change exactly when the previous and
    the current titles have the same case-folded forms, whatever their
    order, casing and repeats; and that is exactly when
    [format_issue_title] gives the empty title for its result. *)
Theorem no_change_iff_same_keys (casefold : pystr → pystr)
    (previous current : list pystr) :
  let d := diff_titles casefold previous current in
  (d = ([], [])
   ↔ ∀ k, k ∈ casefold <$> previous ↔ k ∈ casefold <$> current)
  ∧ (format_issue_title d.1 d.2 = []
     ↔ ∀ k, k ∈ casefold <$> previous ↔ k ∈ casefold <$> current).
Proof.
  cbv zeta. split; [apply diff_titles_nil|].
  rewrite format_issue_title_nil, <- diff_titles_nil.
  destruct (diff_titles casefold previous current) as [a r]. simpl.
  split; [by intros [-> ->]|by intros [= -> ->]].
Qed.

(** X8. On the titles [extract_titles] returns, the sort of [added]
    changes nothing: the added titles are the new ones among the current
    titles, in the order of the snapshot; and against no previous title
    every current title is added and none is removed. *)
Theorem diff_titles_of_extracted (T : html_tables)
    (casefold : pystr → pystr) (unicode_tolower : N → N)
    (unicode_isalnum : N → bool) (feed : pystr → list starttag)
    (html_text : pystr) (previous : list pystr) :
  let titles :=
    extract_titles T casefold unicode_tolower unicode_isalnum feed
      html_text in
  (diff_titles casefold previous titles).1
  = filter (λ t, casefold t ∉ casefold <$> previous) titles
  ∧ diff_titles casefold [] titles = (titles, []).
Proof.
  cbv zeta.
  set (titles := extract_titles _ _ _ _ _ _).
  assert (StronglySorted (key_le casefold) titles) as Hsorted
    by apply list_sort_sorted.
  split.
  - rewrite diff_titles_fst. by apply list_sort_id, StronglySorted_filter.
  - by apply diff_titles_first.
Qed.

(** X9. The sorts of [diff_titles] are stable: the added titles of one
    case-folded form are the current titles of that form, in the order
    they have in [current], when no previous title has that form, and
    none otherwise; likewise for the removed titles and [previous]. *)
Theorem diff_titles_stable (casefold : pystr → pystr)
    (previous current : list pystr) (k : pystr) :
  let d := diff_titles casefold previous current in
  filter (λ t, casefold t = k) d.1
  = (if bool_decide (k ∈ casefold <$> previous) then []
     else filter (λ t, casefold t = k) current)
  ∧ filter (λ t, casefold t = k) d.2
    = (if bool_decide (k ∈ casefold <$> current) then []
       else filter (λ t, casefold t = k) previous).
Proof.
  cbv zeta. rewrite diff_titles_fst, diff_titles_snd.
  rewrite <- !list_filter_bool, !list_sort_stable, !list_filter_bool.
  split; apply filter_key_new.
Qed.

(** X10. With the added titles [diff_titles] computes, the line of a
    current title in the issue body is bold exactly when no previous
    title has its case-folded form. *)
Theorem new_titles_are_bold (casefold : pystr → pystr)
    (previous current : list pystr) :
  let d := diff_titles casefold previous current in
  Forall (λ t,
    current_line casefold (list_to_set (casefold <$> d.1)) t
    = if bool_decide (casefold t ∈ casefold <$> previous)
      then u "- " ++ escape_markdown t
      else u "- **" ++ escape_markdown t ++ u "**") current.
Proof.
  cbv zeta. rewrite diff_titles_fst. apply Forall_forall. intros t Ht.
  case_bool_decide as Hold.
  - apply current_line_plain. intros (a & Ha & Heq).
    rewrite list_sort_perm in Ha.
    apply list_elem_of_filter in Ha as [Hnew _]. apply Hnew. by rewrite Heq.
  - apply current_line_bold. exists t. split; [|done].
    rewrite list_sort_perm. by apply list_elem_of_filter.
Qed.

(** ** Markdown escaping loses nothing *)

Lemma backslash_prefixed_cases c :
  (markdown_special c = true ∧ backslash_prefixed c = [92; c])
  ∨ (markdown_special c = false ∧ backslash_prefixed c = [c] ∧ c ≠ 92).
Proof.
  unfold backslash_prefixed. destruct (markdown_special c) eqn:Hc; [by left|].
  right. split_and!; try done. intros ->. done.
Qed.

Lemma length_escape_markdown text :
  (length text ≤ length (concat (backslash_prefixed <$> text))
   ≤ 2 * length text)%nat.
Proof.
  induction text as [|c text IH]; [simpl; lia|].
  rewrite fmap_cons, concat_cons, length_app.
  destruct (backslash_prefixed_cases c) as [[_ ->]|(_ & -> & _)];
    cbn [length]; lia.
Qed.

(** X11. [escape_markdown] is injective: two texts with the same escaped
    form are the same text. *)
Theorem escape_markdown_injective (a b : pystr) :
  escape_markdown a = escape_markdown b → a = b.
Proof.
  rewrite !escape_markdown_chars. revert b.
  induction a as [|c a IH]; intros [|d b]; rewrite ?fmap_cons, ?concat_cons.
  - done.
  - destruct (backslash_prefixed_cases d) as [[_ ->]|(_ & -> & _)]; done.
  - destruct (backslash_prefixed_cases c) as [[_ ->]|(_ & -> & _)]; done.
  - destruct (backslash_prefixed_cases c) as [[Hc ->]|(Hc & -> & Hc')],
      (backslash_prefixed_cases d) as [[Hd ->]|(Hd & -> & Hd')]; simpl.
    + intros [= -> Heq]. f_equal. by apply IH.
    + intros [= <- _]. done.
    + intros [= -> _]. done.
    + intros [= -> Heq]. f_equal. by apply IH.
Qed.

Lemma escape_markdown_injective_witness :
  u "Elantris *signed*" = [69; 108; 97; 110; 116; 114; 105; 115; 32; 42;
                           115; 105; 103; 110; 101; 100; 42].
Proof. apply escape_markdown_injective. vm_compute. reflexivity. Defined.

(** X12. [escape_markdown] leaves a text as it is exactly when the text
    holds none of the six special characters; the escaped text is never
    shorter than the text and at most twice as long. *)
Theorem escape_markdown_fixed (text : pystr) :
  (escape_markdown text = text
   ↔ Forall (λ c, markdown_special c = false) text)
  ∧ (length text ≤ length (escape_markdown text) ≤ 2 * length text)%nat.
Proof.
  rewrite escape_markdown_chars.
  split; [|apply length_escape_markdown].
  induction text as [|c text IH]; [done|].
  rewrite fmap_cons, concat_cons, Forall_cons.
  destruct (backslash_prefixed_cases c) as [[Hc ->]|(Hc & -> & Hc')]; simpl.
  - split; [|by intros [? _]; congruence].
    intros Heq. exfalso.
    assert (length (92 :: c :: concat (backslash_prefixed <$> text))
            = length (c :: text)) as Hl by by rewrite Heq.
    simpl in Hl. pose proof (length_escape_markdown text). lia.
  - rewrite <- IH. split; [by intros [= ->]|by intros [_ ->]].
Qed.

(** ** The shape of the issue body *)

Lemma startswith_app p x : startswith p (p ++ x) = true.
Proof. induction p as [|c p IH]; simpl; [done|]. by rewrite N.eqb_refl. Qed.

Lemma join_cons_cons sep (a b : pystr) ls :
  join sep (a :: b :: ls) = a ++ sep ++ join sep (b :: ls).
Proof. done. Qed.

Lemma join_head sep (l : pystr) ls : ∃ rest, join sep (l :: ls) = l ++ rest.
Proof.
  destruct ls as [|l' ls]; simpl; [exists []; by rewrite app_nil_r|].
  by eexists.
Qed.

(** A character that is no whitespace, and what stands in front of it,
    outlive [rstrip]. *)
Lemma rstrip_keeps_prefix (p : pystr) c x :
  isspace c = false → ∃ y, rstrip (p ++ c :: x) = p ++ c :: y.
Proof.
  intros Hc. unfold rstrip.
  destruct (decide (rstrip_of isspace x = [])) as [Hx|Hx].
  - exists []. change (p ++ c :: x) with (p ++ [c] ++ x).
    rewrite app_assoc, rstrip_of_app_drop by done.
    rewrite rstrip_of_snoc_keep by done. done.
  - exists (rstrip_of isspace x). change (p ++ c :: x) with (p ++ [c] ++ x).
    rewrite app_assoc, rstrip_of_app_keep by done.
    by rewrite <- app_assoc.
Qed.

Lemma body_starts (casefold : pystr → pystr) (p : pystr) c x
    current added removed :
  isspace c = false →
  join [10] (issue_lines casefold current added removed) = p ++ c :: x →
  startswith (p ++ [c]) (format_issue_body casefold current added removed)
  = true.
Proof.
  intros Hc Hj. unfold format_issue_body. rewrite Hj.
  destruct (rstrip_keeps_prefix p c x Hc) as (y & ->).
  change (p ++ c :: y) with (p ++ [c] ++ y).
  rewrite app_assoc, <- app_assoc. apply startswith_app.
Qed.

Lemma issue_lines_head (casefold : pystr → pystr) current added removed :
  ∃ rest,
    issue_lines casefold current added removed
    = match added, removed with
      | a :: _, _ =>
          u "Added:" :: (u "- **" ++ escape_markdown a ++ u "**") :: rest
      | [], r :: _ => u "Removed:" :: (u "- " ++ escape_markdown r) :: rest
      | [], [] => u "Current signed titles:" :: rest
      end.
Proof.
  unfold issue_lines.
  destruct added as [|a added'], removed as [|r removed'];
    rewrite ?fmap_cons; cbn [app]; by eexists.
Qed.

(** X13. The issue body is never blank and ends with exactly one line
    feed: it is a text without whitespace at its end, in which the
    heading [Current signed titles:] stands, followed by one line
    feed. *)
Theorem format_issue_body_shape (casefold : pystr → pystr)
    (current added removed : list pystr) :
  ∃ text,
    format_issue_body casefold current added removed = text ++ [10]
    ∧ rstrip text = text
    ∧ occurs_in (u "Current signed titles:") text.
Proof.
  exists (rstrip (join [10] (issue_lines casefold current added removed))).
  split_and!; [done|apply rstrip_of_idemp|].
  destruct (issue_lines_current casefold current added removed)
    as (sections & ->).
  destruct (join_elem_of [10] (u "Current signed titles:")
              (sections ++ u "Current signed titles:"
                 :: (current_line casefold
                       (list_to_set (casefold <$> added)) <$> current)))
    as (a & b & ->).
  { apply elem_of_app. right. left. }
  change (u "Current signed titles:")
    with (rstrip_of isspace (u "Current signed titles:")) at 1.
  apply rstrip_of_occurs.
Qed.

(** X14. A section without entries is left out, and the sections come
    in the order added, removed, current: with an added title the body
    begins with [Added:] and the bold line of the first added title;
    with no added title and a removed one it begins with [Removed:] and
    a list item; with neither it begins with the heading of the current
    titles. *)
Theorem format_issue_body_sections (casefold : pystr → pystr)
    (current added removed : list pystr) :
  let body := format_issue_body casefold current added removed in
  (∀ a added', added = a :: added' →
     startswith
       (u "Added:" ++ [10] ++ u "- **" ++ escape_markdown a ++ u "**") body
     = true)
  ∧ (∀ r removed', added = [] → removed = r :: removed' →
       startswith (u "Removed:" ++ [10] ++ u "-") body = true)
  ∧ (added = [] → removed = [] →
       startswith (u "Current signed titles:") body = true).
Proof.
  cbv zeta.
  destruct (issue_lines_head casefold current added removed) as (rest & Hl).
  split_and!.
  - intros a added' ->.
    destruct (join_head [10] (u "- **" ++ escape_markdown a ++ u "**") rest)
      as (more & Hj).
    replace (u "Added:" ++ [10] ++ u "- **" ++ escape_markdown a ++ u "**")
      with ((u "Added:" ++ [10] ++ u "- **" ++ escape_markdown a ++ [42])
            ++ [42])
      by (by rewrite <- !app_assoc).
    apply (body_starts casefold _ 42 more); [done|].
    rewrite Hl, join_cons_cons, Hj.
    by rewrite <- !app_assoc.
  - intros r removed' -> ->.
    destruct (join_head [10] (u "- " ++ escape_markdown r) rest)
      as (more & Hj).
    apply (body_starts casefold (u "Removed:" ++ [10]) 45
             (32 :: escape_markdown r ++ more)); [done|].
    rewrite Hl, join_cons_cons, Hj.
    by rewrite <- !app_assoc.
  - intros -> ->.
    destruct (join_head [10] (u "Current signed titles:") rest)
      as (more & Hj).
    apply (body_starts casefold (u "Current signed titles") 58 more);
      [done|].
    by rewrite Hl, Hj.
Qed.

(** ** What [write_json] writes *)

(** Induction on a value, with the property at hand for the items of a
    list and of a [dict]. *)
Lemma value_induction (P : value → Prop) :
  P VNone → (∀ b, P (VBool b)) → (∀ n, P (VInt n)) → (∀ lit, P (VFloat lit)) →
  (∀ s, P (VStr s)) →
  (∀ items, Forall P items → P (VList items)) →
  (∀ items, Forall (λ kv, P kv.2) items → P (VDict items)) →
  ∀ o, P o.
Proof.
  intros HN HB HI HF HS HL HD. fix IH 1. intros [|b|n|lit|s|items|items].
  - exact HN.
  - apply HB.
  - apply HI.
  - apply HF.
  - apply HS.
  - apply HL. induction items as [|x items IHitems]; constructor.
    + apply IH.
    + exact IHitems.
  - apply HD. induction items as [|[k x] items IHitems]; constructor.
    + apply IH.
    + exact IHitems.
Qed.

Lemma json_ascii_check l :
  forallb (λ c, (c =? 10) || ((32 <=? c) && (c <=? 126))) l = true →
  Forall json_ascii l.
Proof.
  induction l as [|c l IH]; simpl; [constructor|].
  intros [Hc Hl]%andb_true_iff. constructor; [|by apply IH].
  unfold json_ascii. revert Hc. compare_cases.
Qed.

Lemma hexdigit_ascii d : d < 16 → json_ascii (hexdigit d).
Proof. unfold hexdigit, json_ascii. intros Hd. compare_cases. Qed.

Lemma hex4_ascii n : Forall json_ascii (hex4 n).
Proof.
  unfold hex4.
  repeat (apply Forall_cons_2;
          [apply hexdigit_ascii, N.mod_lt; lia|]).
  constructor.
Qed.

Lemma escape_char_ascii c : Forall json_ascii (escape_char c).
Proof.
  unfold escape_char.
  repeat match goal with
    | |- context [if ?x =? ?k then _ else _] =>
        destruct (x =? k); [by apply json_ascii_check|]
    end.
  destruct ((32 <=? c) && (c <=? 126)) eqn:Hp.
  - apply andb_true_iff in Hp as [?%N.leb_le ?%N.leb_le].
    apply Forall_cons_2; [unfold json_ascii; lia|constructor].
  - destruct (c <? 65536).
    + apply Forall_app. split; [by apply json_ascii_check|apply hex4_ascii].
    + cbv zeta. rewrite !Forall_app.
      split_and!; (by apply json_ascii_check) || apply hex4_ascii.
Qed.

Lemma encode_basestring_ascii_ascii s :
  Forall json_ascii (encode_basestring_ascii s).
Proof.
  unfold encode_basestring_ascii.
  apply Forall_app. split; [by apply json_ascii_check|].
  apply Forall_app. split; [|by apply json_ascii_check].
  apply Forall_concat, Forall_fmap, Forall_forall. intros c _.
  apply escape_char_ascii.
Qed.

Lemma uint_digits_ascii d : Forall json_ascii (uint_digits d).
Proof.
  induction d; simpl; constructor; (done || unfold json_ascii; lia).
Qed.

Lemma int_repr_ascii n : Forall json_ascii (int_repr n).
Proof.
  destruct n as [|p|p]; unfold int_repr.
  - by apply json_ascii_check.
  - apply uint_digits_ascii.
  - constructor; [unfold json_ascii; lia|apply uint_digits_ascii].
Qed.

Lemma join_Forall (P : N → Prop) sep lines :
  Forall P sep → Forall (Forall P) lines → Forall P (join sep lines).
Proof.
  intros Hsep. induction 1 as [|l ls Hl Hls IH]; [constructor|].
  destruct ls as [|l' ls]; [done|].
  rewrite join_cons_cons. by rewrite !Forall_app.
Qed.

Lemma indentation_ascii k : Forall json_ascii (indentation k).
Proof.
  unfold indentation. apply Forall_replicate. unfold json_ascii. lia.
Qed.

Lemma encode_ascii (float_repr : pystr → pystr) (o : value) :
  no_float o = true → ∀ level, Forall json_ascii (encode float_repr level o).
Proof.
  induction o as [|b|n|lit|s|items IH|items IH] using value_induction;
    intros Hnf level.
  - by apply json_ascii_check.
  - destruct b; by apply json_ascii_check.
  - apply int_repr_ascii.
  - done.
  - apply encode_basestring_ascii_ascii.
  - destruct items as [|x items]; [by apply json_ascii_check|].
    cbn [encode].
    assert (Forall json_ascii (10 :: indentation (S level))) as Hni.
    { constructor; [by left|apply indentation_ascii]. }
    rewrite !Forall_app. split_and!.
    + by apply json_ascii_check.
    + done.
    + apply join_Forall; [constructor; [unfold json_ascii; lia|done]|].
      apply Forall_fmap.
      cbn [no_float] in Hnf. apply Is_true_true, forallb_True in Hnf.
      apply Forall_forall. intros y Hy. cbn [fst snd compose].
      eapply Forall_forall in IH; [|exact Hy].
      eapply Forall_forall in Hnf; [|exact Hy].
      apply IH. by apply Is_true_true.
    + constructor; [by left|].
      apply Forall_app. split; [apply indentation_ascii|].
      by apply json_ascii_check.
  - destruct items as [|x items]; [by apply json_ascii_check|].
    cbn [encode].
    assert (Forall json_ascii (10 :: indentation (S level))) as Hni.
    { constructor; [by left|apply indentation_ascii]. }
    rewrite !Forall_app. split_and!.
    + by apply json_ascii_check.
    + done.
    + apply join_Forall; [constructor; [unfold json_ascii; lia|done]|].
      apply Forall_fmap. rewrite list_sort_perm. apply Forall_fmap.
      cbn [no_float] in Hnf. apply Is_true_true, forallb_True in Hnf.
      apply Forall_forall. intros y Hy. cbn [fst snd compose].
      eapply Forall_forall in IH; [|exact Hy].
      eapply Forall_forall in Hnf; [|exact Hy].
      rewrite !Forall_app. split_and!.
      * apply encode_basestring_ascii_ascii.
      * by apply json_ascii_check.
      * apply IH. by apply Is_true_true.
    + constructor; [by left|].
      apply Forall_app. split; [apply indentation_ascii|].
      by apply json_ascii_check.
Qed.

(** X15. [write_json] puts at the path a text that ends with a line feed
    and, for a payload without floats, holds only line feeds and
    printable ASCII characters: every other character of a text or of a
    key is written as an escape. *)
Theorem write_json_ascii (float_repr : pystr → pystr) (path : pystr)
    (payload : value) (fs : filesystem) :
  no_float payload = true →
  ∃ text,
    write_json float_repr path payload fs !! path = Some (text ++ [10])
    ∧ Forall json_ascii text.
Proof.
  intros Hnf. exists (encode float_repr 0 payload). split.
  - apply lookup_insert_eq.
  - by apply encode_ascii.
Qed.

Lemma write_json_ascii_witness :
  ∃ text,
    write_json id (u "data/latest.json")
      (snapshot (u "2024-01-01T00:00:00Z") SOURCE_URL
         [[201; 108; 97; 110; 116; 114; 105; 115; 128512]]) ∅
    !! u "data/latest.json" = Some (text ++ [10])
    ∧ Forall json_ascii text.
Proof. apply write_json_ascii. reflexivity. Defined.

(** ** The steps of the run *)

Lemma snapshot_path_truthy args file_timestamp :
  has_output args = true →
  truthy (Some (snapshot_path args file_timestamp)) = true.
Proof.
  unfold has_output, snapshot_path, path_join.
  destruct (truthy (output_dir args)).
  - intros _. by destruct (default [] (output_dir args)).
  - by destruct (output args) as [[|c l]|].
Qed.

Lemma json_reread_titles titles :
  Forall (λ t, is_text t ∧ no_surrogate_pair t = true) titles →
  json_reread <$> titles = titles.
Proof.
  induction 1 as [|t ts [Ht Hp] _ IH]; [done|].
  by rewrite fmap_cons, IH, json_reread_id.
Qed.

Section RunFacts.
Variable T : html_tables.
Variable casefold : pystr → pystr.
Variable unicode_tolower : N → N.
Variable unicode_isalnum : N → bool.
Variable feed : pystr → list starttag.
Variable float_repr : pystr → pystr.
Variable str_repr : pystr → pystr.

Local Abbreviation run :=
  (main T casefold unicode_tolower unicode_isalnum feed float_repr str_repr).
Local Abbreviation extracted :=
  (extract_titles T casefold unicode_tolower unicode_isalnum feed).
Local Abbreviation load := (load_titles float_repr str_repr).
Local Abbreviation snapshots := (snapshots_written float_repr).
Local Abbreviation reports := (reports_written casefold float_repr).

(** [main], step by step: the refusal, the snapshot writes, the load of
    the previous titles, the report writes. *)
Lemma main_steps args timestamp file_timestamp html_text w :
  run args timestamp file_timestamp html_text w
  = let titles := extracted html_text in
    if bool_decide (titles = []) then
      (inr 2%Z,
       {| files := files w;
          stderr := stderr w
            ++ u "No signed titles found; refusing to write empty snapshot."
            ++ [10] |})
    else
      let fs := snapshots args timestamp file_timestamp titles (files w) in
      match (if truthy (previous args)
             then load (default [] (previous args)) fs
             else inr []) with
      | inl e => (inl e, {| files := fs; stderr := stderr w |})
      | inr previous_titles =>
          (inr 0%Z,
           {| files := reports args timestamp titles previous_titles fs;
              stderr := stderr w |})
      end.
Proof.
  unfold main, snapshots_written, reports_written, snapshot_path.
  destruct (extracted html_text) as [|t ts] eqn:Ht; [done|].
  cbv zeta. rewrite bool_decide_eq_false_2 by done.
  destruct (if truthy (previous args) then _ else _) as [e|previous_titles];
    [done|].
  by destruct (diff_titles casefold previous_titles (t :: ts))
    as [added removed].
Qed.

(** The loader looks at the one file it is asked for. *)
Lemma load_titles_lookup (path : pystr) (fs fs' : filesystem) :
  fs !! path = fs' !! path → load path fs = load path fs'.
Proof. unfold load_titles. by intros ->. Qed.

Lemma snapshots_written_lookup args timestamp file_timestamp titles fs
    (p : pystr) :
  snapshots args timestamp file_timestamp titles fs !! p
  = if bool_decide (p = snapshot_path args file_timestamp
                    ∨ (truthy (latest args) = true ∧ latest args = Some p))
    then Some (encode float_repr 0 (snapshot timestamp SOURCE_URL titles)
               ++ [10])
    else fs !! p.
Proof.
  unfold snapshots_written, write_json. cbv zeta.
  destruct (latest args) as [[|c l]|] eqn:Hl;
    cbn [truthy default from_option id].
  - destruct (decide (p = snapshot_path args file_timestamp)) as [->|Hne].
    + rewrite lookup_insert_eq, bool_decide_eq_true_2; [done|by left].
    + rewrite lookup_insert_ne, bool_decide_eq_false_2; [done| |done].
      by intros [?|[? _]].
  - destruct (decide (p = c :: l)) as [->|Hne].
    + rewrite lookup_insert_eq, bool_decide_eq_true_2; [done|by right].
    + rewrite lookup_insert_ne by done.
      destruct (decide (p = snapshot_path args file_timestamp)) as [->|Hne'].
      * rewrite lookup_insert_eq, bool_decide_eq_true_2; [done|by left].
      * rewrite lookup_insert_ne, bool_decide_eq_false_2; [done| |done].
        intros [?|[_ ?]]; [done|]. by simplify_eq.
  - destruct (decide (p = snapshot_path args file_timestamp)) as [->|Hne].
    + rewrite lookup_insert_eq, bool_decide_eq_true_2; [done|by left].
    + rewrite lookup_insert_ne, bool_decide_eq_false_2; [done| |done].
      by intros [?|[? _]].
Qed.

Lemma snapshots_written_keeps args timestamp file_timestamp titles fs
    (p : pystr) :
  is_Some (fs !! p) →
  is_Some (snapshots args timestamp file_timestamp titles fs !! p).
Proof.
  intros Hp. rewrite snapshots_written_lookup. by case_bool_decide.
Qed.

Lemma load_snapshots_written args timestamp file_timestamp titles fs
    (p : pystr) :
  p = snapshot_path args file_timestamp
  ∨ (truthy (latest args) = true ∧ latest args = Some p) →
  load p (snapshots args timestamp file_timestamp titles fs)
  = inr (json_reread <$> titles).
Proof.
  intros Hp.
  rewrite <- (load_written_snapshot float_repr str_repr p timestamp
                SOURCE_URL titles fs).
  apply load_titles_lookup.
  rewrite snapshots_written_lookup, bool_decide_eq_true_2 by done.
  unfold write_json. by rewrite lookup_insert_eq.
Qed.

(** Without a report option the block writes nothing. *)
Lemma reports_written_none args timestamp titles previous_titles fs :
  truthy (diff args) || truthy (issue_body args)
  || truthy (issue_title args) = false →
  reports args timestamp titles previous_titles fs = fs.
Proof. intros Hnone. unfold reports_written. by rewrite Hnone. Qed.

Lemma reports_written_title args timestamp titles previous_titles fs
    (q : pystr) :
  issue_title args = Some q → q ≠ [] →
  reports args timestamp titles previous_titles fs !! q
  = Some (format_issue_title
            (diff_titles casefold previous_titles titles).1
            (diff_titles casefold previous_titles titles).2 ++ [10]).
Proof.
  intros Hq Hne. unfold reports_written. rewrite Hq.
  destruct q as [|c q]; [done|]. cbn [truthy default from_option id].
  rewrite !orb_true_r. cbv zeta. apply lookup_insert_eq.
Qed.

Lemma reports_written_keeps args timestamp titles previous_titles fs
    (p : pystr) :
  is_Some (fs !! p) →
  is_Some (reports args timestamp titles previous_titles fs !! p).
Proof.
  intros Hp. unfold reports_written, write_json. cbv zeta.
  repeat case_match; rewrite ?lookup_insert_is_Some'; auto 10.
Qed.
End RunFacts.

(** X17. The run ends with the exit code 2 exactly when the extraction
    yields no title, and with no other exit code than 0 and 2; when it
    ends with 0 it has written nothing to the diagnostic stream; it
    raises [JSONDecodeError] or [AttributeError] only when titles were
    found and [--previous] is given; and with titles found, a place for
    the snapshot and no [--previous] it ends with 0. *)
Theorem main_exit_code (T : html_tables) (casefold : pystr → pystr)
    (unicode_tolower : N → N) (unicode_isalnum : N → bool)
    (feed : pystr → list starttag) (float_repr str_repr : pystr → pystr)
    (args : namespace) (timestamp file_timestamp html_text : pystr)
    (w : world) :
  let titles :=
    extract_titles T casefold unicode_tolower unicode_isalnum feed
      html_text in
  let result :=
    main T casefold unicode_tolower unicode_isalnum feed float_repr str_repr
      args timestamp file_timestamp html_text w in
  (result.1 = inr 2%Z ↔ titles = [])
  ∧ (∀ code, result.1 = inr code → code = 0%Z ∨ code = 2%Z)
  ∧ (result.1 = inr 0%Z → stderr result.2 = stderr w)
  ∧ (∀ e, result.1 = inl e → titles ≠ [] ∧ truthy (previous args) = true)
  ∧ (has_output args = true → titles ≠ [] →
     truthy (previous args) = false → result.1 = inr 0%Z).
Proof.
  cbv zeta. rewrite main_steps. cbv zeta.
  case_bool_decide as Hnil.
  { simpl. split_and!; try done. intros code [= <-]. by right. }
  destruct (truthy (previous args)) eqn:Hp;
    [destruct (load_titles _ _ _ _) as [e|previous_titles]|]; simpl;
    split_and!; try done; try (by split); intros code [= <-]; by left.
Qed.

(** X18. What a run writes, the next run reads: when titles are found,
    none of which holds a high surrogate directly followed by a low one,
    and the run is given no report option ([--diff], [--issue-body],
    [--issue-title]) or ends with an exception of the loader, the
    snapshot path and the [--latest] path hold the JSON text of the
    snapshot at the end of the run, and [load_titles] reads the titles of
    the run from them. *)
Theorem main_snapshot_reread (T : html_tables) (casefold : pystr → pystr)
    (unicode_tolower : N → N) (unicode_isalnum : N → bool)
    (feed : pystr → list starttag) (float_repr str_repr : pystr → pystr)
    (args : namespace) (timestamp file_timestamp html_text : pystr)
    (w : world) (p : pystr) :
  let titles :=
    extract_titles T casefold unicode_tolower unicode_isalnum feed
      html_text in
  let result :=
    main T casefold unicode_tolower unicode_isalnum feed float_repr str_repr
      args timestamp file_timestamp html_text w in
  has_output args = true →
  titles ≠ [] →
  Forall (λ t, is_text t ∧ no_surrogate_pair t = true) titles →
  p = snapshot_path args file_timestamp
  ∨ (truthy (latest args) = true ∧ latest args = Some p) →
  truthy (diff args) || truthy (issue_body args)
  || truthy (issue_title args) = false
  ∨ (∃ e, result.1 = inl e) →
  files result.2 !! p
  = Some (encode float_repr 0 (snapshot timestamp SOURCE_URL titles) ++ [10])
  ∧ load_titles float_repr str_repr p (files result.2) = inr titles.
Proof.
  cbv zeta. intros _ Hne Hok Hp Hquiet.
  set (titles := extract_titles _ _ _ _ _ _) in *.
  assert (files (main T casefold unicode_tolower unicode_isalnum feed
                   float_repr str_repr args timestamp file_timestamp
                   html_text w).2
          = snapshots_written float_repr args timestamp file_timestamp
              titles (files w)) as Hfiles.
  { revert Hquiet. rewrite main_steps. cbv zeta. fold titles.
    rewrite bool_decide_eq_false_2 by done.
    destruct (if truthy (previous args) then _ else _)
      as [e|previous_titles]; [done|].
    cbn [fst snd files]. intros [Hnone|[e He]]; [|done].
    by apply reports_written_none. }
  rewrite Hfiles. split.
  - rewrite snapshots_written_lookup.
    by rewrite bool_decide_eq_true_2.
  - rewrite load_snapshots_written by done.
    f_equal. by apply json_reread_titles.
Qed.

Lemma main_snapshot_reread_witness :
  files (main xml_tables ascii_casefold ascii_tolower ascii_isalnum
           (λ _, elantris_page) id id snapshot_only
           (u "2024-01-01T00:00:00Z") (u "2024-01-01T00-00-00Z") []
           {| files := ∅; stderr := [] |}).2 !! u "data/latest.json"
  = Some (encode id 0
            (snapshot (u "2024-01-01T00:00:00Z") SOURCE_URL
               (extract_titles xml_tables ascii_casefold ascii_tolower
                  ascii_isalnum (λ _, elantris_page) []))
          ++ [10])
  ∧ load_titles id id (u "data/latest.json")
      (files (main xml_tables ascii_casefold ascii_tolower ascii_isalnum
                (λ _, elantris_page) id id snapshot_only
                (u "2024-01-01T00:00:00Z") (u "2024-01-01T00-00-00Z") []
                {| files := ∅; stderr := [] |}).2)
    = inr (extract_titles xml_tables ascii_casefold ascii_tolower
             ascii_isalnum (λ _, elantris_page) []).
Proof.
  apply (main_snapshot_reread xml_tables ascii_casefold ascii_tolower
           ascii_isalnum (λ _, elantris_page) id id snapshot_only).
  - reflexivity.
  - apply (bool_decide_unpack _). vm_compute. exact I.
  - unfold is_text. apply (bool_decide_unpack _). vm_compute. exact I.
  - right. split; reflexivity.
  - left. reflexivity.
Defined.

(** X19. When [--previous] names the path the snapshot is written to, or
    the [--latest] path, the run compares its titles with the snapshot
    it has just written: with titles found, none of which holds a high
    surrogate directly followed by a low one, it ends with 0 and the
    issue title it writes is the empty line, whatever the file held
    before the run. *)
Theorem main_previous_is_snapshot (T : html_tables)
    (casefold : pystr → pystr)
    (unicode_tolower : N → N) (unicode_isalnum : N → bool)
    (feed : pystr → list starttag) (float_repr str_repr : pystr → pystr)
    (args : namespace) (timestamp file_timestamp html_text : pystr)
    (w : world) (p q : pystr) :
  let titles :=
    extract_titles T casefold unicode_tolower unicode_isalnum feed
      html_text in
  let result :=
    main T casefold unicode_tolower unicode_isalnum feed float_repr str_repr
      args timestamp file_timestamp html_text w in
  has_output args = true →
  titles ≠ [] →
  Forall (λ t, is_text t ∧ no_surrogate_pair t = true) titles →
  previous args = Some p →
  p = snapshot_path args file_timestamp
  ∨ (truthy (latest args) = true ∧ latest args = Some p) →
  issue_title args = Some q → q ≠ [] →
  result.1 = inr 0%Z ∧ files result.2 !! q = Some [10].
Proof.
  cbv zeta. intros Hout Hne Hok Hprev Hp Hq Hqne.
  set (titles := extract_titles _ _ _ _ _ _) in *.
  assert (truthy (previous args) = true) as Htp.
  { rewrite Hprev. destruct Hp as [->|[Hl Hp]].
    - by apply snapshot_path_truthy.
    - by rewrite <- Hp. }
  rewrite main_steps. cbv zeta. fold titles.
  rewrite bool_decide_eq_false_2, Htp, Hprev by done.
  cbn [default from_option id].
  rewrite load_snapshots_written, json_reread_titles by done.
  cbn [fst snd files]. split; [done|].
  rewrite (reports_written_title _ _ _ _ _ _ _ q) by done.
  rewrite (proj2 (diff_titles_nil casefold titles titles)); done.
Qed.

Lemma main_previous_is_snapshot_witness :
  (main xml_tables ascii_casefold ascii_tolower ascii_isalnum
     (λ _, elantris_page) id id all_outputs
     (u "2024-01-01T00:00:00Z") (u "2024-01-01T00-00-00Z") []
     {| files := {[ u "data/latest.json" := u "{}" ]}; stderr := [] |}).1
  = inr 0%Z
  ∧ files (main xml_tables ascii_casefold ascii_tolower ascii_isalnum
             (λ _, elantris_page) id id all_outputs
             (u "2024-01-01T00:00:00Z") (u "2024-01-01T00-00-00Z") []
             {| files := {[ u "data/latest.json" := u "{}" ]};
                stderr := [] |}).2 !! u "out/title.txt"
    = Some [10].
Proof.
  apply (main_previous_is_snapshot xml_tables ascii_casefold ascii_tolower
           ascii_isalnum (λ _, elantris_page) id id all_outputs
           _ _ _ _ (u "data/latest.json")).
  - reflexivity.
  - apply (bool_decide_unpack _). vm_compute. exact I.
  - unfold is_text. apply (bool_decide_unpack _). vm_compute. exact I.
  - reflexivity.
  - right. split; reflexivity.
  - reflexivity.
  - discriminate.
Defined.

(** X20. A run that is not given [--previous] reports every title as
    added: when titles are found, none of which holds a surrogate, the
    run ends with 0 and the issue title it writes is the one
    [format_issue_title] gives for all the titles added and none
    removed. *)
Theorem main_first_run (T : html_tables) (casefold : pystr → pystr)
    (unicode_tolower : N → N) (unicode_isalnum : N → bool)
    (feed : pystr → list starttag) (float_repr str_repr : pystr → pystr)
    (args : namespace) (timestamp file_timestamp html_text : pystr)
    (w : world) (q : pystr) :
  let titles :=
    extract_titles T casefold unicode_tolower unicode_isalnum feed
      html_text in
  let result :=
    main T casefold unicode_tolower unicode_isalnum feed float_repr str_repr
      args timestamp file_timestamp html_text w in
  has_output args = true →
  titles ≠ [] →
  Forall utf8_encodable titles →
  truthy (previous args) = false →
  issue_title args = Some q → q ≠ [] →
  result.1 = inr 0%Z
  ∧ files result.2 !! q = Some (format_issue_title titles [] ++ [10]).
Proof.
  cbv zeta. intros _ Hne _ Hprev Hq Hqne.
  set (titles := extract_titles _ _ _ _ _ _) in *.
  rewrite main_steps. cbv zeta. fold titles.
  rewrite bool_decide_eq_false_2, Hprev by done.
  cbn [fst snd files]. split; [done|].
  rewrite (reports_written_title _ _ _ _ _ _ _ q) by done.
  rewrite diff_titles_first; [done|]. apply list_sort_sorted.
Qed.

Lemma main_first_run_witness :
  (main xml_tables ascii_casefold ascii_tolower ascii_isalnum
     (λ _, elantris_page) id id first_run
     (u "2024-01-01T00:00:00Z") (u "2024-01-01T00-00-00Z") []
     {| files := ∅; stderr := [] |}).1
  = inr 0%Z
  ∧ files (main xml_tables ascii_casefold ascii_tolower ascii_isalnum
             (λ _, elantris_page) id id first_run
             (u "2024-01-01T00:00:00Z") (u "2024-01-01T00-00-00Z") []
             {| files := ∅; stderr := [] |}).2 !! u "out/title.txt"
    = Some (format_issue_title
              (extract_titles xml_tables ascii_casefold ascii_tolower
                 ascii_isalnum (λ _, elantris_page) []) []
            ++ [10]).
Proof.
  apply (main_first_run xml_tables ascii_casefold ascii_tolower
           ascii_isalnum (λ _, elantris_page) id id first_run).
  - reflexivity.
  - apply (bool_decide_unpack _). vm_compute. exact I.
  - unfold utf8_encodable. apply (bool_decide_unpack _). vm_compute. exact I.
  - reflexivity.
  - reflexivity.
  - discriminate.
Defined.

(** X21. The run removes no file; and a run that is given no report
    option ([--diff], [--issue-body], [--issue-title]) writes nothing
    but the snapshot: after it every file holds what it held before or
    the JSON text of the snapshot. *)
Theorem main_frame (T : html_tables) (casefold : pystr → pystr)
    (unicode_tolower : N → N) (unicode_isalnum : N → bool)
    (feed : pystr → list starttag) (float_repr str_repr : pystr → pystr)
    (args : namespace) (timestamp file_timestamp html_text : pystr)
    (w : world) :
  let titles :=
    extract_titles T casefold unicode_tolower unicode_isalnum feed
      html_text in
  let result :=
    main T casefold unicode_tolower unicode_isalnum feed float_repr str_repr
      args timestamp file_timestamp html_text w in
  (∀ p : pystr, is_Some (files w !! p) → is_Some (files result.2 !! p))
  ∧ (truthy (diff args) || truthy (issue_body args)
     || truthy (issue_title args) = false →
     ∀ p : pystr,
       files result.2 !! p = files w !! p
       ∨ files result.2 !! p
         = Some (encode float_repr 0
                   (snapshot timestamp SOURCE_URL titles) ++ [10])).
Proof.
  cbv zeta. rewrite main_steps. cbv zeta.
  case_bool_decide as Hnil; [split; [done|by left]|].
  split.
  - intros p Hp.
    destruct (if truthy (previous args) then _ else _)
      as [e|previous_titles]; cbn [snd files].
    + by apply snapshots_written_keeps.
    + by apply reports_written_keeps, snapshots_written_keeps.
  - intros Hnone p.
    assert (files (match (if truthy (previous args) then _ else _) with
                   | inl e => _
                   | inr previous_titles => _
                   end).2
            = snapshots_written float_repr args timestamp file_timestamp
                (extract_titles T casefold unicode_tolower unicode_isalnum
                   feed html_text) (files w)) as ->.
    { destruct (if truthy (previous args) then _ else _)
        as [e|previous_titles]; cbn [snd files]; [done|].
      by apply reports_written_none. }
    rewrite snapshots_written_lookup. case_bool_decide; [by right|by left].
Qed.

(** ** The filter and the case of letters *)

Section SearchCase.
Variable unicode_tolower : N → N.
Variable unicode_isalnum : N → bool.

Local Abbreviation word := (is_word unicode_isalnum).
Local Abbreviation same_letter :=
  (λ c d : N, unicode_tolower c = unicode_tolower d
              ∧ word (Some c) = word (Some d)).

Lemma same_letter_head a b :
  Forall2 same_letter a b → word (head a) = word (head b).
Proof. by intros [|c d a' b' [_ Hw] _]. Qed.

Lemma match_ignore_same codes before before' a b :
  word before = word before' → Forall2 same_letter a b →
  match match_ignore unicode_tolower codes before a,
        match_ignore unicode_tolower codes before' b with
  | Some (l, r), Some (l', r') => word l = word l' ∧ Forall2 same_letter r r'
  | None, None => True
  | _, _ => False
  end.
Proof.
  revert before before' a b.
  induction codes as [|cs codes IH]; intros before before' a b Hb Hab.
  - done.
  - destruct Hab as [|c d a' b' [Hl Hw] Hab']; [done|].
    cbn [match_ignore]. rewrite Hl.
    case_bool_decide; [|done]. by apply IH.
Qed.

Lemma SIGNED_match_same before before' a b :
  word before = word before' → Forall2 same_letter a b →
  SIGNED_match unicode_tolower unicode_isalnum before a
  = SIGNED_match unicode_tolower unicode_isalnum before' b.
Proof.
  intros Hb Hab. unfold SIGNED_match, at_boundary.
  rewrite Hb, (same_letter_head a b Hab).
  pose proof (match_ignore_same SIGNED_codes before before' a b Hb Hab) as Hm.
  destruct (match_ignore _ _ before a) as [[l r]|],
    (match_ignore _ _ before' b) as [[l' r']|]; try done.
  destruct Hm as [Hl Hr]. by rewrite Hl, (same_letter_head r r' Hr).
Qed.

Lemma SIGNED_search_from_same before before' a b :
  word before = word before' → Forall2 same_letter a b →
  SIGNED_search_from unicode_tolower unicode_isalnum before a
  = SIGNED_search_from unicode_tolower unicode_isalnum before' b.
Proof.
  intros Hb Hab. revert before before' Hb.
  induction Hab as [|c d a b Hcd Hab IH]; intros before before' Hb.
  - cbn [SIGNED_search_from]. f_equal. by apply SIGNED_match_same.
  - cbn [SIGNED_search_from]. f_equal.
    + apply SIGNED_match_same; [done|by constructor].
    + apply IH. by destruct Hcd.
Qed.
End SearchCase.

(** X22. The filter ignores the case of letters: two texts of the same
    length whose characters, place by place, have the same lower case
    and are both word characters or both not, pass the search of
    [SIGNED_RE] together or fail it together. *)
Theorem SIGNED_search_same_letters (unicode_tolower : N → N)
    (unicode_isalnum : N → bool) (a b : pystr) :
  Forall2 (λ c d, unicode_tolower c = unicode_tolower d
                  ∧ is_word unicode_isalnum (Some c)
                    = is_word unicode_isalnum (Some d)) a b →
  SIGNED_search unicode_tolower unicode_isalnum a
  = SIGNED_search unicode_tolower unicode_isalnum b.
Proof. intros Hab. by apply SIGNED_search_from_same. Qed.

Lemma SIGNED_search_same_letters_witness :
  SIGNED_search ascii_tolower ascii_isalnum (u "ELANTRIS (signed)")
  = SIGNED_search ascii_tolower ascii_isalnum (u "elantris (SIGNED)").
Proof.
  apply SIGNED_search_same_letters.
  repeat constructor.
Defined.
